(** * Beat-synchronised video editor and TikTok uploader: a shallow embedding

    The development follows the two Python sources of the repository.

    - [Module Editor] embeds [editor.py]: [detect_beats],
      [get_video_files_from_folder], [get_random_audio_file] and the part of
      [create_beat_synchronized_video] that plans the segments (lines 145-297).
    - [Module Uploader] embeds [tiktok_uploader.py]: the tracking file read by
      [__init__], [_get_random_caption], [_load_cookies], the description
      built and the files touched by [_upload_single_video], [_setup_driver]
      and [_cleanup] as far as [self.driver] goes, [upload_video] and
      [upload_multiple_videos].

    Conventions.

    - Timestamps are Python floats that the editor only compares and copies,
      never computes with, so they are rationals [Q]: on finite floats the
      comparisons are exact, and a boundary of a segment is always one of the
      input numbers itself.  A beat read from a configuration file is taken
      to be a number that a float holds, so that [float(...)] at l.254-255
      gives it back as it is and does not raise.
    - Text is a [string] of bytes: the UTF-8 encoding of a Python [str].
      The functions on text below are Python's, read on the encoding: the
      order of [str] is the order of the bytes, a suffix of the characters is
      a suffix of the bytes, and white space is what [str.isspace] holds for,
      ASCII or not.
    - A path names one file: two different paths are two different files.
      The tracking file is a file of its own: no video, screenshot, caption
      or cookie path names it.
    - A library call that the source guards with [try] is embedded with its
      failure, as an oracle of the surroundings; one that the source does not
      guard is taken to return, unless the model of the function says
      otherwise. *)

From Stdlib Require Import QArith Ascii.
From stdpp Require Import base option list strings gmap sorting.

Open Scope Q_scope.
Open Scope list_scope.

(** * Python built-ins *)

(** ** Numbers *)

Definition Qltb (x y : Q) : bool := negb (Qle_bool y x).

(** [min(a, b)] and [max(a, b)] return the first argument on a tie. *)
Definition py_min (a b : Q) : Q := if Qltb b a then b else a.
Definition py_max (a b : Q) : Q := if Qltb a b then b else a.

#[global] Instance Qle_dec : RelDecision Qle :=
  fun x y => match Qlt_le_dec y x with
             | left H => right (Qlt_not_le y x H)
             | right H => left H
             end.

(** [sorted] on numbers. *)
Definition sorted (l : list Q) : list Q := merge_sort Qle l.

(** [not l] *)
Definition is_empty {A} (l : list A) : bool :=
  match l with [] => true | _ => false end.

(** ** Text *)

Abbreviation Path := string (only parsing).

Definition newline : string := String "010"%char "".

(** The UTF-8 encoding of the code point [cp]. *)
Definition utf8 (cp : N) : string :=
  let byte := ascii_of_N in
  (if cp <? 128 then String (byte cp) ""
   else if cp <? 2048 then
     String (byte (192 + cp / 64)) (String (byte (128 + cp mod 64)) "")
   else if cp <? 65536 then
     String (byte (224 + cp / 4096))
       (String (byte (128 + (cp / 64) mod 64)) (String (byte (128 + cp mod 64)) ""))
   else
     String (byte (240 + cp / 262144))
       (String (byte (128 + (cp / 4096) mod 64))
          (String (byte (128 + (cp / 64) mod 64))
             (String (byte (128 + cp mod 64)) ""))))%N.

Definition lower_char (c : ascii) : ascii :=
  let n := nat_of_ascii c in
  if ((65 <=? n) && (n <=? 90))%nat then ascii_of_nat (n + 32) else c.

(** [str.lower] as far as a test against ASCII text can tell.  The letters A
    to Z are lowered; the Kelvin sign U+212A (bytes 226 132 170) is lowered
    to k; the dotted capital I U+0130 (bytes 196 176) is lowered to i and
    the combining dot U+0307 (bytes 204 135).  Python lowers no other
    character to ASCII text, and any other character is kept as it is: the
    sources only test a lowered name against the extensions below. *)
Fixpoint lower (s : string) : string :=
  match s with
  | String "226" (String "132" (String "170" r)) => String "k" (lower r)
  | String "196" (String "176" r) =>
      String "i" (String "204" (String "135" (lower r)))
  | String c r => String (lower_char c) (lower r)
  | "" => ""
  end.

(** [s.endswith(suffix)] *)
Fixpoint endswith (s suffix : string) : bool :=
  String.eqb s suffix ||
  match s with
  | "" => false
  | String _ r => endswith r suffix
  end.

(** [file.lower().endswith(ext)] for some [ext] of [exts] *)
Definition has_extension (exts : list string) (file : string) : bool :=
  existsb (endswith (lower file)) exts.

(** The code points for which [str.isspace] holds. *)
Definition whitespace : list N :=
  [9; 10; 11; 12; 13; 28; 29; 30; 31; 32; 133; 160; 5760;
   8192; 8193; 8194; 8195; 8196; 8197; 8198; 8199; 8200; 8201; 8202;
   8232; 8233; 8239; 8287; 12288]%N.

(** The white-space characters as text. *)
Definition spaces : list string := Eval vm_compute in utf8 <$> whitespace.

(** [c.isspace()] for a text [c] of one character *)
Definition py_isspace (c : string) : bool := existsb (String.eqb c) spaces.

(** [s.startswith(prefix)] *)
Fixpoint startswith (s prefix : string) {struct prefix} : bool :=
  match prefix with
  | "" => true
  | String a p =>
      match s with
      | "" => false
      | String b r => Ascii.eqb a b && startswith r p
      end
  end.

(** [s[n:]] *)
Fixpoint string_drop (n : nat) (s : string) : string :=
  match n, s with
  | S n, String _ r => string_drop n r
  | _, _ => s
  end.

(** The text after its first character, when that character is white
    space. *)
Definition drop_space (s : string) : option string :=
  match List.find (startswith s) spaces with
  | Some c => Some (string_drop (String.length c) s)
  | None => None
  end.

(** [str.lstrip()] in at most [n] steps. *)
Fixpoint lstrip_from (n : nat) (s : string) : string :=
  match n with
  | O => s
  | S n =>
      match drop_space s with
      | Some r => lstrip_from n r
      | None => s
      end
  end.

(** [str.lstrip()]: a step drops a character, so the length of the text
    bounds the steps. *)
Definition lstrip (s : string) : string := lstrip_from (String.length s) s.

(** [str.rstrip()] *)
Fixpoint rstrip (s : string) : string :=
  match s with
  | "" => ""
  | String c r =>
      let t := String c (rstrip r) in
      if py_isspace t then "" else t
  end.

(** [str.strip()] *)
Definition strip (s : string) : string := rstrip (lstrip s).

(** [f.readlines()] of a file opened in text mode: the lines with their
    terminators, where a carriage return, alone or before a line feed, is
    read as a line feed. *)
Fixpoint readlines (s : string) : list string :=
  match s with
  | "" => []
  | String c rest =>
      if Ascii.eqb c "010"%char then newline :: readlines rest
      else if Ascii.eqb c "013"%char then
        match rest with
        | String c' rest' =>
            if Ascii.eqb c' "010"%char then newline :: readlines rest'
            else newline :: readlines rest
        | "" => [newline]
        end
      else
        match readlines rest with
        | [] => [String c ""]
        | l :: ls => String c l :: ls
        end
  end.

(** The text has no line feed and no carriage return in it. *)
Fixpoint no_line_break_text (s : string) : bool :=
  match s with
  | "" => true
  | String c r =>
      negb (Ascii.eqb c "010"%char) && negb (Ascii.eqb c "013"%char)
      && no_line_break_text r
  end.

(** [sep.join(l)] *)
Fixpoint join (sep : string) (l : list string) : string :=
  match l with
  | [] => ""
  | [x] => x
  | x :: rest => x +:+ sep +:+ join sep rest
  end.

(** [os.path.join(dir, file)] for a directory entry [file] (a name with no
    separator in it), on a POSIX system. *)
Definition path_join (dir file : string) : Path :=
  if String.eqb dir "" || endswith dir "/" then dir +:+ file
  else dir +:+ "/" +:+ file.

(** The order of [str]: by code point, a proper prefix first. *)
Definition str_le (a b : string) : Prop := String.leb a b = true.

#[global] Instance str_le_dec : RelDecision str_le :=
  fun a b => decide (String.leb a b = true).

(** [list.sort()] on a list of [str]. *)
Definition sort_strings (l : list string) : list string := merge_sort str_le l.

(** ** The random module

    The generator is a sequence of draws and a position in it; a call
    consumes one draw. *)
Record RandomState := mkRandomState {
  rs_draw : nat -> nat;
  rs_pos : nat
}.

Definition next_index (n : nat) (s : RandomState) : nat :=
  (rs_draw s (rs_pos s) mod n)%nat.

Definition advance (s : RandomState) : RandomState :=
  {| rs_draw := rs_draw s; rs_pos := S (rs_pos s) |}.

(** The generator that always draws [n]. *)
Definition constant_draws (n : nat) : RandomState :=
  {| rs_draw := fun _ => n; rs_pos := 0 |}.

(** [random.randint(a, b)] on the draw [r]: ValueError when the range is
    empty. *)
Definition randint (a b : Z) (r : nat) : option Z :=
  if (b <? a)%Z then None else Some (a + Z.of_nat r mod (b - a + 1))%Z.

(** * editor.py *)

Module Editor.

(** ** Data *)

Abbreviation Time := Q (only parsing).

(** A planned segment: the span of the audio it is cut for and the clip file
    it is cut from.  In the source a segment is the prepared clip appended to
    [segments]; its span is what the source prints when it creates it. *)
Record Segment := mkSegment {
  seg_start : Time;
  seg_end : Time;
  seg_clip : Path
}.

(** The exceptions [create_beat_synchronized_video] raises in the planning
    part, by the line that raises them. *)
Inductive PlanError :=
| NoVideoFiles       (* l.150: ValueError, no video file in either folder *)
| NoBeats            (* l.161: ValueError, no beats detected or provided *)
| NoIntroBoundary    (* l.167: ValueError, no beat after MIN_INTRO_DURATION *)
| IntroClipLoadError (* l.178: VideoFileClip(intro_clip_path) re-raised *)
| IntroSegmentError  (* l.211: cutting the intro segment re-raised *)
| NoSegments.        (* l.295: ValueError, no valid segment *)

(** What the function reads from its surroundings.  The two clip folders
    exist and are listed: the module makes them when it is loaded
    (l.30-33). *)
Record Env := mkEnv {
  goon_clips : list Path;     (* get_video_files_from_folder(CLIPS_GOON_FOLDER) *)
  zeta_clips : list Path;     (* get_video_files_from_folder(CLIPS_EDIT_FOLDER) *)
  loads : Path -> bool;       (* VideoFileClip(path) does not raise *)
  cuts : Path -> Time -> Time -> bool;
                              (* the segment for the span from the first time
                                 to the second is cut from the clip: subclip,
                                 concatenate_videoclips and prepare_clip do
                                 not raise *)
  beats : list Time;          (* first component of detect_beats(...) *)
  audio_duration : Time;      (* AudioFileClip(audio_file).duration *)
  MIN_INTRO_DURATION : Time   (* module constant, 2 in the source *)
}.

(** ** Calls that draw from the generator and may raise *)

Definition M (A : Type) : Type := RandomState -> PlanError + (A * RandomState).

Definition ret {A} (a : A) : M A := fun s => inr (a, s).
Definition raise {A} (e : PlanError) : M A := fun _ => inl e.
Definition bind {A B} (m : M A) (k : A -> M B) : M B :=
  fun s => match m s with
           | inl e => inl e
           | inr (a, s') => k a s'
           end.

Notation "x <- m ;; k" := (bind m (fun x => k))
  (at level 100, m at next level, right associativity).

(** [random.choice(l)] for a non-empty [l]; every call site guards against
    the empty list, on which the element [d] stands for the IndexError. *)
Definition random_choice {A} (d : A) (l : list A) : M A :=
  fun s => inr (nth (next_index (length l) s) l d, advance s).

(** ** The folders, lines 97-128 *)

Definition video_extensions : list string :=
  [".mp4"; ".avi"; ".mov"; ".mkv"; ".wmv"; ".flv"; ".webm"].

Definition audio_extensions : list string :=
  [".mp3"; ".wav"; ".ogg"; ".m4a"; ".flac"].

(** The loop of l.106-109 and of l.123-126 over [os.listdir(folder)]. *)
Definition files_with_extension (isfile : Path -> bool) (exts : list string)
    (folder_path : Path) (entries : list string) : list Path :=
  path_join folder_path <$>
    List.filter (fun file => isfile (path_join folder_path file)
                             && has_extension exts file) entries.

(** What [os.path.exists], [os.makedirs] and [os.listdir] find at the path
    of a folder. *)
Inductive Folder :=
| NoFolder (created : bool)        (* nothing is at the path; whether
                                      os.makedirs returns: it raises OSError
                                      for the empty path and where it may
                                      not write *)
| Listing (entries : list string)  (* os.listdir returns these names *)
| NoListing.                       (* os.listdir raises OSError: the path is
                                      no directory, or may not be read *)

(** l.97-112.  [None] stands for the OSError that the function lets
    through. *)
Definition get_video_files_from_folder (isfile : Path -> bool)
    (folder_path : Path) (folder : Folder) : option (list Path) :=
  match folder with
  | NoFolder created => if created then Some [] else None
  | Listing entries =>
      Some (sort_strings
              (files_with_extension isfile video_extensions folder_path entries))
  | NoListing => None
  end.

Definition AUDIO_FOLDER : Path := "audios".

(** l.114-128 *)
Definition get_random_audio_file (isfile : Path -> bool)
    (listing : option (list string)) : M (option Path) :=
  match listing with
  | None => ret None
  | Some entries =>
      let audio_files :=
        files_with_extension isfile audio_extensions AUDIO_FOLDER entries in
      if is_empty audio_files then ret None
      else audio_file <- random_choice ""%string audio_files ;; ret (Some audio_file)
  end.

(** ** The planner, [create_beat_synchronized_video] lines 145-297 *)

(** l.153: the list the intro clip is chosen from *)
Definition intro_pool (goon_clips zeta_clips : list Path) : list Path :=
  if is_empty goon_clips then zeta_clips else goon_clips.

(** l.164: [next((b for b in beats if b >= MIN_INTRO_DURATION), None)] *)
Definition next_beat_after_intro (min_intro : Time) (bs : list Time) : option Time :=
  List.find (fun b => Qle_bool min_intro b) bs.

(** l.188-197 *)
Definition intro_end_time (min_intro : Time) (bs : list Time) (nb : Time) : Time :=
  let valid_intro_beats := List.filter (fun b => Qle_bool min_intro b) bs in
  let t := match valid_intro_beats with
           | [] => py_max min_intro nb
           | b :: _ => b
           end in
  py_min t nb.

(** l.223-234: the clips that load, or the intro clip when none does. *)
Definition load_clips (loads : Path -> bool) (remaining_clips : list Path)
    (intro_clip : Path) : list Path :=
  match List.filter loads remaining_clips with
  | [] => [intro_clip]
  | clips => clips
  end.

(** l.236-237 *)
Definition order_clips (forward : bool) (clips : list Path) : list Path :=
  if forward then clips else rev clips.

(** l.245 *)
Definition beats_after (t : Time) (bs : list Time) : list Time :=
  List.filter (fun b => Qltb t b) bs.

(** l.252-272: one turn of the loop over [range(len(beats_after_intro) - 1)].
    The state is [(segments, seq_index)].  Whatever raises inside the [try]
    is caught and the turn is skipped: an index out of range before
    [seq_index] is incremented, a failed cut after it. *)
Definition loop_body (cuts : Path -> Time -> Time -> bool)
    (clip_sequence : list Path) (beats_after_intro : list Time)
    (st : list Segment * nat) (i : nat) : list Segment * nat :=
  let '(segments, seq_index) := st in
  match beats_after_intro !! i, beats_after_intro !! (i + 1)%nat with
  | Some start_time, Some end_time =>
      match clip_sequence !! (seq_index mod length clip_sequence)%nat with
      | Some current_clip =>
          if cuts current_clip start_time end_time then
            (segments ++ [mkSegment start_time end_time current_clip], S seq_index)
          else (segments, S seq_index)
      | None => (segments, seq_index)
      end
  | _, _ => (segments, seq_index)
  end.

Definition beat_loop (cuts : Path -> Time -> Time -> bool)
    (clip_sequence : list Path) (beats_after_intro : list Time)
    (st : list Segment * nat) : list Segment * nat :=
  fold_left (loop_body cuts clip_sequence beats_after_intro)
            (seq 0 (length beats_after_intro - 1)) st.

(** l.274-293 *)
Definition final_segment (cuts : Path -> Time -> Time -> bool)
    (clip_sequence : list Path) (beats_after_intro : list Time)
    (audio_duration : Time) (st : list Segment * nat) : list Segment * nat :=
  let '(segments, seq_index) := st in
  match last beats_after_intro with
  | Some b =>
      if Qltb b audio_duration then
        match clip_sequence !! (seq_index mod length clip_sequence)%nat with
        | Some current_clip =>
            if cuts current_clip b audio_duration then
              (segments ++ [mkSegment b audio_duration current_clip], S seq_index)
            else (segments, S seq_index)
        | None => (segments, seq_index)
        end
      else (segments, seq_index)
  | None => (segments, seq_index)
  end.

Definition create_beat_synchronized_video (env : Env) : M (list Segment) :=
  if is_empty (goon_clips env) && is_empty (zeta_clips env) then raise NoVideoFiles
  else
    intro_clip_path <-
      random_choice ""%string (intro_pool (goon_clips env) (zeta_clips env)) ;;
    let remaining_clips := zeta_clips env in
    if is_empty (beats env) then raise NoBeats
    else
      match next_beat_after_intro (MIN_INTRO_DURATION env) (beats env) with
      | None => raise NoIntroBoundary
      | Some nb =>
          if negb (loads env intro_clip_path) then raise IntroClipLoadError
          else
            let t := intro_end_time (MIN_INTRO_DURATION env) (beats env) nb in
            if negb (cuts env intro_clip_path 0 t) then raise IntroSegmentError
            else
              let segments := [mkSegment 0 t intro_clip_path] in
              let clips := load_clips (loads env) remaining_clips intro_clip_path in
              forward <- random_choice true [true; false] ;;
              let clip_sequence := order_clips forward clips in
              let beats_after_intro := beats_after t (beats env) in
              let st := beat_loop (cuts env) clip_sequence beats_after_intro
                          (segments, 0%nat) in
              let st := final_segment (cuts env) clip_sequence beats_after_intro
                          (audio_duration env) st in
              if is_empty (fst st) then raise NoSegments else ret (fst st)
      end.

(** The outcome of a run without the generator's final state. *)
Definition plan (env : Env) (s : RandomState) : PlanError + list Segment :=
  match create_beat_synchronized_video env s with
  | inl e => inl e
  | inr (segs, _) => inr segs
  end.

(** ** [detect_beats], lines 57-95 *)

(** The two keys of the configuration file that the function reads; [None]
    stands for an absent key.  [labeled_beats] is a JSON object from labels to
    lists of timestamps, kept in file order as a Python dict keeps it. *)
Record Config := mkConfig {
  cfg_labeled_beats : option (list (string * list Time));
  cfg_beats : option (list Time)
}.

(** What librosa finds in the audio file: the beat times, and the strong
    onsets unless the onset detection raises. *)
Record AudioAnalysis := mkAudioAnalysis {
  beat_times : list Time;
  strong_onsets : option (list Time)
}.

(** [config] is [None] when no config file is named or the named file does
    not exist (l.61). *)
Definition detect_beats (config : option Config) (audio : AudioAnalysis)
    : list Time * list (string * list Time) :=
  let detect :=
    let labeled_beats :=
      match strong_onsets audio with
      | Some ((_ :: _) as onsets) => [("drop"%string, onsets)]
      | _ => []
      end in
    (beat_times audio, labeled_beats) in
  match config with
  | Some config =>
      match cfg_labeled_beats config with
      | Some labeled_beats =>
          let all_beats := concat (map snd labeled_beats) in
          (sorted all_beats, labeled_beats)
      | None =>
          match cfg_beats config with
          | Some bs => (bs, [])
          | None => detect
          end
      end
  | None => detect
  end.

(** ** Reading a plan *)

(** The two choices of a run: the intro clip drawn at l.153 and the
    direction drawn at l.237. *)
Definition chosen_intro (env : Env) (s : RandomState) : Path :=
  let pool := intro_pool (goon_clips env) (zeta_clips env) in
  nth (next_index (length pool) s) pool ""%string.

Definition chosen_forward (s : RandomState) : bool :=
  nth (next_index 2 (advance s)) [true; false] true.

(** [clip_sequence] as l.237 leaves it. *)
Definition clip_sequence_of (env : Env) (s : RandomState) : list Path :=
  order_clips (chosen_forward s)
    (load_clips (loads env) (zeta_clips env) (chosen_intro env s)).

(** The clip of turn [k] of the round robin over [cs]. *)
Definition clip_at (cs : list Path) (k : nat) : Path :=
  nth (k mod length cs) cs ""%string.

(** One segment for each pair of neighbours of [tail], the first pair at
    turn [k]. *)
Fixpoint round_robin (cs : list Path) (k : nat) (tail : list Time) : list Segment :=
  match tail with
  | [] => []
  | a :: rest =>
      match rest with
      | [] => []
      | b :: _ => mkSegment a b (clip_at cs k) :: round_robin cs (S k) rest
      end
  end.

(** The segment the source tries last: from the last beat of [tail] to the
    end of the audio, at turn [k]. *)
Definition closing (cs : list Path) (k : nat) (tail : list Time) (D : Time)
    : list Segment :=
  match last tail with
  | Some b => if Qltb b D then [mkSegment b D (clip_at cs k)] else []
  | None => []
  end.

(** The cut of a segment succeeds. *)
Definition made (cuts : Path -> Time -> Time -> bool) (seg : Segment) : bool :=
  cuts (seg_clip seg) (seg_start seg) (seg_end seg).

(** [b] is the first element of [bs] that is at least [m]. *)
Definition first_beat_at_least (m : Time) (bs : list Time) (b : Time) : Prop :=
  exists pre post, bs = pre ++ b :: post /\ Forall (fun x => ~ m <= x) pre /\ m <= b.

(** Each segment ends where the next one starts. *)
Definition contiguous (segs : list Segment) : Prop :=
  forall i a b, segs !! i = Some a -> segs !! S i = Some b -> seg_end a == seg_start b.

(** No segment starts before the one before it ends. *)
Definition no_overlap (segs : list Segment) : Prop :=
  forall i a b, segs !! i = Some a -> segs !! S i = Some b -> seg_end a <= seg_start b.

(** The segments are contiguous from 0 to [D]. *)
Definition covers (D : Time) (segs : list Segment) : Prop :=
  (exists first, head segs = Some first /\ seg_start first == 0) /\
  contiguous segs /\
  (exists final, last segs = Some final /\ seg_end final == D).

(** The inputs the specification calls valid. *)
Definition valid_input (env : Env) : Prop :=
  beats env <> [] /\ StronglySorted Qlt (beats env) /\
  0 < audio_duration env /\ 0 <= MIN_INTRO_DURATION env /\ zeta_clips env <> [].

(** The segments of a run that gets to l.297, read off its inputs: the intro
    clip [intro], the clip sequence [cs] and the intro boundary [nb]. *)
Definition segments_of (env : Env) (intro : Path) (cs : list Path) (nb : Time)
    : list Segment :=
  let tail := beats_after nb (beats env) in
  mkSegment 0 nb intro ::
    List.filter (made (cuts env))
      (round_robin cs 0 tail
         ++ closing cs (length tail - 1) tail (audio_duration env)).

(** The outcome of a run as a function of its two choices. *)
Definition plan_of_choices (env : Env) (intro : Path) (forward : bool)
    : PlanError + list Segment :=
  if is_empty (goon_clips env) && is_empty (zeta_clips env) then inl NoVideoFiles
  else if is_empty (beats env) then inl NoBeats
  else
    match next_beat_after_intro (MIN_INTRO_DURATION env) (beats env) with
    | None => inl NoIntroBoundary
    | Some nb =>
        if negb (loads env intro) then inl IntroClipLoadError
        else if negb (cuts env intro 0 nb) then inl IntroSegmentError
        else
          inr (segments_of env intro
                 (order_clips forward (load_clips (loads env) (zeta_clips env) intro))
                 nb)
    end.

(** The surroundings [env] with [z] in the content folder. *)
Definition with_zeta (z : list Path) (env : Env) : Env :=
  {| goon_clips := goon_clips env; zeta_clips := z;
     loads := loads env; cuts := cuts env; beats := beats env;
     audio_duration := audio_duration env;
     MIN_INTRO_DURATION := MIN_INTRO_DURATION env |}.

(** The surroundings [env] with the beats [bs]. *)
Definition with_beats (bs : list Time) (env : Env) : Env :=
  {| goon_clips := goon_clips env; zeta_clips := zeta_clips env;
     loads := loads env; cuts := cuts env; beats := bs;
     audio_duration := audio_duration env;
     MIN_INTRO_DURATION := MIN_INTRO_DURATION env |}.

Definition example_env : Env :=
  {| goon_clips := ["clips/goon/intro.mp4"%string];
     zeta_clips := ["clips/edit/a.mp4"%string; "clips/edit/b.mp4"%string];
     loads := fun _ => true;
     cuts := fun _ _ _ => true;
     beats := [1; 3; 6; 9];
     audio_duration := 10;
     MIN_INTRO_DURATION := 2 |}.

(** The example with a fifth beat and a longer audio, where the cut of the
    span that starts at 6 raises. *)
Definition example_env_failed_cut : Env :=
  {| goon_clips := ["clips/goon/intro.mp4"%string];
     zeta_clips := ["clips/edit/a.mp4"%string; "clips/edit/b.mp4"%string];
     loads := fun _ => true;
     cuts := fun _ start_time _ => negb (Qeq_bool start_time 6);
     beats := [1; 3; 6; 9; 12];
     audio_duration := 15;
     MIN_INTRO_DURATION := 2 |}.

(** The example where the content clip a.mp4 does not load. *)
Definition example_env_unloaded : Env :=
  {| goon_clips := ["clips/goon/intro.mp4"%string];
     zeta_clips := ["clips/edit/a.mp4"%string; "clips/edit/b.mp4"%string];
     loads := fun p => negb (String.eqb p "clips/edit/a.mp4");
     cuts := fun _ _ _ => true;
     beats := [1; 3; 6; 9];
     audio_duration := 10;
     MIN_INTRO_DURATION := 2 |}.

End Editor.

(** * tiktok_uploader.py *)

Module Uploader.

(** ** The uploader and the files around it *)

Record State := mkState {
  files : gset Path;            (* the paths that exist, the tracking file apart *)
  tracking : option string;     (* text of self.tracking_file, None when it does not exist *)
  captions_dir : Path;          (* self.captions_dir *)
  uploaded_videos : gset Path;  (* self.uploaded_videos *)
  driver : bool                 (* self.driver is not None *)
}.

Definition set_files (f : gset Path) (st : State) : State :=
  {| files := f; tracking := tracking st; captions_dir := captions_dir st;
     uploaded_videos := uploaded_videos st; driver := driver st |}.

Definition set_tracking (t : option string) (st : State) : State :=
  {| files := files st; tracking := t; captions_dir := captions_dir st;
     uploaded_videos := uploaded_videos st; driver := driver st |}.

Definition set_uploaded_videos (u : gset Path) (st : State) : State :=
  {| files := files st; tracking := tracking st; captions_dir := captions_dir st;
     uploaded_videos := u; driver := driver st |}.

Definition set_driver (d : bool) (st : State) : State :=
  {| files := files st; tracking := tracking st; captions_dir := captions_dir st;
     uploaded_videos := uploaded_videos st; driver := d |}.

Definition tracking_text (st : State) : string :=
  default "" (tracking st).

(** l.66-69: the set read from the tracking file *)
Definition load_uploaded (text : option string) : gset Path :=
  match text with
  | Some t => list_to_set (strip <$> readlines t)
  | None => ∅
  end.

(** l.51-69.  [fs] are the paths that exist and [text] is the tracking file
    when the uploader is made. *)
Definition __init__ (captions : Path) (fs : gset Path) (text : option string) : State :=
  {| files := if bool_decide (captions ∈ fs) then fs
              else {[captions; path_join captions "sample.txt"]} ∪ fs;
     tracking := text;
     captions_dir := captions;
     uploaded_videos := load_uploaded text;
     driver := false |}.

(** ** Captions *)

Definition default_caption : string := "Check out my new video!".

(** l.71-92.  [listing] is [os.listdir(self.captions_dir)], [read] gives
    what [f.read()] returns for a file, [None] when opening or reading it
    raises, and [r] is the draw of [random.choice]. *)
Definition _get_random_caption (captions : Path) (listing : list string)
    (read : Path -> option string) (r : nat) : string :=
  let caption_files :=
    path_join captions <$> List.filter (fun file => endswith file ".txt") listing in
  if is_empty caption_files then default_caption
  else
    let caption_file := nth (r mod length caption_files) caption_files "" in
    match read caption_file with
    | Some text => strip text
    | None => default_caption
    end.

(** l.432-435 *)
Definition add_hashtags (description : string) (hashtags : option (list string))
    : string :=
  match hashtags with
  | Some ((_ :: _) as tags) =>
      description +:+ " " +:+ join " " ((fun tag => "#" +:+ tag) <$> tags)
  | _ => description
  end.

(** ** One upload *)

(** The result of a wait on the page: the element is found, the wait times
    out (TimeoutException), or the driver raises something else. *)
Inductive Wait := Found | Timeout | Crash.

(** What the surroundings do during one call of [_upload_single_video]. *)
Record Browser := mkBrowser {
  b_get : bool;                      (* l.392 opening the upload page returns *)
  b_file_input : nat -> bool;        (* l.399-404 by attempt: file input found and filled *)
  b_refresh : nat -> bool;           (* l.410 by attempt: refresh returns *)
  b_processing : Wait;               (* l.418 *)
  b_captions : option (list string); (* l.74 os.listdir(self.captions_dir), None when it raises *)
  b_read : Path -> option string;    (* l.86-87 *)
  b_draw : nat;                      (* l.83 *)
  b_set_caption : string -> option Path;
                                     (* l.438: the file _set_caption_text saves,
                                        if any, on the caption it is given *)
  b_post_click : nat -> bool;        (* l.444-447 by attempt *)
  b_js_click : bool;                 (* l.457 *)
  b_completion : Wait;               (* l.464 *)
  b_current_url : bool;              (* l.469 reading current_url returns *)
  b_track_write : bool;              (* l.482-483 the tracking file is opened and written *)
  b_error_screenshot : option Path;  (* l.492 file saved by the error handler *)
  b_remove : bool                    (* l.497 os.remove of an existing path returns *)
}.

(** Where control goes after a step inside the [try] block. *)
Inductive Flow := Next | ReturnFalse | Throw.

(** l.396-414 *)
Fixpoint select_file (b : Browser) (max_attempts : nat) (attempts : list nat) : Flow :=
  match attempts with
  | [] => Next
  | attempt :: rest =>
      if b_file_input b attempt then Next
      else if (attempt <? max_attempts - 1)%nat then
        if b_refresh b attempt then select_file b max_attempts rest else Throw
      else ReturnFalse
  end.

(** l.441-460 *)
Fixpoint click_post (b : Browser) (max_post_attempts : nat) (attempts : list nat) : Flow :=
  match attempts with
  | [] => Next
  | attempt :: rest =>
      if b_post_click b attempt then Next
      else if (attempt <? max_post_attempts - 1)%nat then
        click_post b max_post_attempts rest
      else if b_js_click b then click_post b max_post_attempts rest
      else ReturnFalse
  end.

(** l.463-478 *)
Definition wait_completion (b : Browser) : Flow :=
  match b_completion b with
  | Found => Next
  | Timeout => if b_current_url b then Next else Throw
  | Crash => Throw
  end.

(** A screenshot or a cookie file is written. *)
Definition save_file (p : option Path) (st : State) : State :=
  match p with
  | Some p => set_files ({[p]} ∪ files st) st
  | None => st
  end.

(** l.428-430 *)
Definition choose_description (b : Browser) (description : option string)
    (st : State) : option string :=
  match description with
  | Some d => Some d
  | None =>
      match b_captions b with
      | Some listing =>
          Some (_get_random_caption (captions_dir st) listing (b_read b) (b_draw b))
      | None => None
      end
  end.

(** The [try] block l.388-486 with its handler l.488-495: the value it is
    about to return and the state it leaves to the [finally] clause. *)
Definition try_upload (b : Browser) (video_path : Path)
    (description : option string) (hashtags : option (list string))
    (st : State) : bool * State :=
  let handler st := (false, save_file (b_error_screenshot b) st) in
  if negb (driver st) then (false, st)
  else if negb (b_get b) then handler st
  else
    match select_file b 3 (seq 0 3) with
    | ReturnFalse => (false, st)
    | Throw => handler st
    | Next =>
        match b_processing b with
        | Crash => handler st
        | _ =>
            match choose_description b description st with
            | None => handler st
            | Some description =>
                let description := add_hashtags description hashtags in
                let st := save_file (b_set_caption b description) st in
                match click_post b 3 (seq 0 3) with
                | ReturnFalse => (false, st)
                | Throw => handler st
                | Next =>
                    match wait_completion b with
                    | Next =>
                        let st :=
                          set_uploaded_videos ({[video_path]} ∪ uploaded_videos st) st in
                        if b_track_write b then
                          (true, set_tracking
                                   (Some (tracking_text st +:+ video_path +:+ newline)) st)
                        else handler st
                    | _ => handler st
                    end
                end
            end
        end
    end.

(** What a call hands back: a returned value or an exception that escapes. *)
Inductive Result (A : Type) := Return (a : A) | Raise.
Arguments Return {A} a.
Arguments Raise {A}.

(** [os.remove(p)]: raises on a path that does not exist, and when the
    system refuses ([ok] is false). *)
Definition os_remove (ok : bool) (p : Path) (st : State) : option State :=
  if bool_decide (p ∈ files st) && ok
  then Some (set_files (files st ∖ {[p]}) st)
  else None.

(** l.372-497 *)
Definition _upload_single_video (b : Browser) (video_path : Path)
    (description : option string) (hashtags : option (list string))
    (st : State) : Result bool * State :=
  if bool_decide (video_path ∈ files st) then
    let '(r, st) := try_upload b video_path description hashtags st in
    match os_remove (b_remove b) video_path st with
    | Some st => (Return r, st)
    | None => (Raise, st)
    end
  else (Return false, st).

(** ** Cookies, [_load_cookies] lines 135-189 *)

(** A cookie is a JSON object, a Python dict; a value is kept as its text. *)
Abbreviation Cookie := (gmap string string) (only parsing).

(** l.164-167 *)
Definition fix_cookie (cookie : Cookie) : Cookie :=
  let cookie :=
    if bool_decide (is_Some (cookie !! "expiry")) then delete "expiry" cookie
    else cookie in
  if bool_decide (is_Some (cookie !! "sameSite")) then <["sameSite" := "None"]> cookie
  else cookie.

(** What opening and parsing the cookies file gives, l.149-150. *)
Inductive CookieFile :=
| CookiesRead (cookies : list Cookie) (* json.load returns a list of objects *)
| CookiesMissing                      (* FileNotFoundError or JSONDecodeError, l.152 *)
| CookiesError.                       (* another exception, caught at l.182 *)

(** What the browser and the disk do during [_load_cookies]. *)
Record CookiePage := mkCookiePage {
  c_get : bool;               (* l.139 get and l.143 delete_all_cookies return *)
  c_file : CookieFile;        (* l.149-150 *)
  c_add : nat -> bool;        (* l.170 add_cookie returns, by the place of the
                                 cookie in the list *)
  c_refresh : bool;           (* l.178 refresh returns *)
  c_screenshot : option Path  (* l.186 the screenshot, when it is saved *)
}.

(** Python's truth value of [self.cookies]: a list that is not empty. *)
Definition has_cookies (cookies : option (list Cookie)) : bool :=
  match cookies with
  | Some (_ :: _) => true
  | _ => false
  end.

(** l.161-175: the count of the cookies the browser takes. *)
Definition added_count (add : nat -> bool) (cookies : list Cookie) : nat :=
  length (List.filter add (seq 0 (length cookies))).

(** l.135-189.  [cookies_file] tells whether [self.cookies_file] is set.  The
    result is what the method returns, [self.cookies] as it leaves it, and
    the screenshot it saves.  The loop of l.162 changes the cookies in
    place, so [self.cookies] holds the fixed ones afterwards. *)
Definition _load_cookies (page : CookiePage) (cookies_file : bool)
    (cookies : option (list Cookie))
    : bool * option (list Cookie) * option Path :=
  if negb (c_get page) then (false, cookies, c_screenshot page)
  else
    let loaded :=
      if cookies_file && negb (has_cookies cookies) then
        match c_file page with
        | CookiesRead cs => inr (Some cs)
        | CookiesMissing => inl None
        | CookiesError => inl (c_screenshot page)
        end
      else inr cookies in
    match loaded with
    | inl screenshot => (false, cookies, screenshot)
    | inr cookies =>
        match cookies with
        | Some ((_ :: _) as cs) =>
            let fixed := fix_cookie <$> cs in
            if c_refresh page then
              (0 <? added_count (c_add page) cs, Some fixed, None)%nat
            else (false, Some fixed, c_screenshot page)
        | _ => (false, cookies, None)
        end
    end.

(** A session cookie as a browser exports it. *)
Definition example_cookie : Cookie :=
  {[ "name" := "sessionid"; "value" := "abc"; "expiry" := "1767225600";
     "sameSite" := "Lax" ]}.

(** A page that loads and takes every cookie; there is no cookies file. *)
Definition example_cookie_page : CookiePage :=
  {| c_get := true; c_file := CookiesMissing; c_add := fun _ => true;
     c_refresh := true; c_screenshot := None |}.

(** ** Driver and login *)

(** What happens while the driver is set up and the account is logged in. *)
Record Session := mkSession {
  s_chrome : bool;         (* l.118 webdriver.Chrome(...) returns *)
  s_script : bool;         (* l.124 execute_script returns *)
  s_cookies : bool;        (* self.cookies_file or self.cookies *)
  s_cookie_login : bool;   (* self._load_cookies() and self._verify_login() *)
  s_manual_login : bool;   (* self._manual_login() *)
  s_saved : gset Path      (* screenshots and cookies saved on the way *)
}.

(** l.94-133 *)
Definition _setup_driver (s : Session) (st : State) : bool * State :=
  if s_chrome s then (s_script s, set_driver true st) else (false, st).

(** l.499-508 *)
Definition _cleanup (st : State) : State := set_driver false st.

(** l.593-608 and l.661-673: whether the account is logged in. *)
Definition login (s : Session) (st : State) : bool * State :=
  let st := set_files (s_saved s ∪ files st) st in
  let login_successful := s_cookies s && s_cookie_login s in
  (login_successful || s_manual_login s, st).

(** l.571-616 *)
Definition upload_video (s : Session) (b : Browser) (video_path : Path)
    (description : option string) (hashtags : option (list string))
    (st : State) : bool * State :=
  let '(result, st) :=
    let '(ok, st) := _setup_driver s st in
    if negb ok then (false, st)
    else
      let '(logged_in, st) := login s st in
      if negb logged_in then (false, st)
      else
        match _upload_single_video b video_path description hashtags st with
        | (Return result, st) => (result, st)
        | (Raise, st) => (false, st)
        end in
  (result, _cleanup st).

(** ** [upload_multiple_videos], l.619-698 *)

Definition upload_extensions : list string := [".mp4"; ".mov"; ".avi"].

(** l.645-651 *)
Definition new_videos (videos_dir : Path) (entries : list string)
    (uploaded : gset Path) : list Path :=
  List.filter (fun file_path => bool_decide (file_path ∉ uploaded))
    (path_join videos_dir <$> List.filter (has_extension upload_extensions) entries).

(** [max_uploads is not None and uploads_count >= max_uploads] *)
Definition limit_reached (max_uploads : option Z) (uploads_count : nat) : bool :=
  match max_uploads with
  | Some m => (m <=? Z.of_nat uploads_count)%Z
  | None => false
  end.

(** The calls of [_upload_single_video] in the order they are made, each with
    whether it returned [True]. *)
Definition Trace := list (Path * bool).

(** The arguments of [upload_multiple_videos] that its loop reads, and what
    the surroundings do on each turn. *)
Record Batch := mkBatch {
  hashtags : option (list string);
  max_uploads : option Z;
  min_delay : Z;
  max_delay : Z;
  browsers : nat -> Browser;   (* by turn of the loop *)
  delays : nat -> nat          (* by turn of the loop: the draw of l.687 *)
}.

(** l.675-689 from turn [i] on, [n] being [len(video_files)]: answers the
    count, or [None] when an exception escapes the loop. *)
Fixpoint upload_loop (c : Batch) (n i : nat) (video_files : list Path)
    (uploads_count : nat) (st : State) (tr : Trace) : option nat * State * Trace :=
  match video_files with
  | [] => (Some uploads_count, st, tr)
  | video :: rest =>
      if limit_reached (max_uploads c) uploads_count then (Some uploads_count, st, tr)
      else
        match _upload_single_video (browsers c i) video None (hashtags c) st with
        | (Raise, st) => (None, st, tr ++ [(video, false)])
        | (Return success, st) =>
            let tr := tr ++ [(video, success)] in
            if success then
              let uploads_count := S uploads_count in
              if (i <? n - 1)%nat && negb (limit_reached (max_uploads c) uploads_count)
              then
                match randint (min_delay c) (max_delay c) (delays c i) with
                | Some delay =>
                    (* time.sleep raises ValueError on a negative delay *)
                    if (delay <? 0)%Z then (None, st, tr)
                    else upload_loop c n (S i) rest uploads_count st tr
                | None => (None, st, tr)
                end
              else upload_loop c n (S i) rest uploads_count st tr
            else upload_loop c n (S i) rest uploads_count st tr
        end
  end.

(** [entries] is [os.listdir(videos_dir)], [None] when the directory does not
    exist. *)
Definition upload_multiple_videos (s : Session) (c : Batch) (videos_dir : Path)
    (entries : option (list string)) (st : State) : nat * State * Trace :=
  match entries with
  | None => (0%nat, st, [])
  | Some entries =>
      let video_files := new_videos videos_dir entries (uploaded_videos st) in
      if is_empty video_files then (0%nat, st, [])
      else
        let '(count, st, tr) :=
          let '(ok, st) := _setup_driver s st in
          if negb ok then (0%nat, st, [])
          else
            let '(logged_in, st) := login s st in
            if negb logged_in then (0%nat, st, [])
            else
              match upload_loop c (length video_files) 0 video_files 0 st [] with
              | (Some uploads_count, st, tr) => (uploads_count, st, tr)
              | (None, st, tr) => (0%nat, st, tr)
              end in
        (count, _cleanup st, tr)
  end.

(** ** Runs of the program that share the tracking file *)

(** One run of the [upload_multiple] command, l.804-813: what is there when
    it starts, its arguments, and what the surroundings do. *)
Record Invocation := mkInvocation {
  inv_files : gset Path;             (* the paths that exist when the run starts *)
  inv_captions_dir : Path;
  inv_session : Session;
  inv_batch : Batch;
  inv_videos_dir : Path;
  inv_entries : option (list string)
}.

(** The run on the tracking file [text]: the tracking file it leaves and the
    uploads it tried. *)
Definition run_invocation (inv : Invocation) (text : option string)
    : option string * Trace :=
  let st := __init__ (inv_captions_dir inv) (inv_files inv) text in
  let '(_, st, tr) :=
    upload_multiple_videos (inv_session inv) (inv_batch inv)
      (inv_videos_dir inv) (inv_entries inv) st in
  (tracking st, tr).

Fixpoint run_invocations (invs : list Invocation) (text : option string)
    : option string * Trace :=
  match invs with
  | [] => (text, [])
  | inv :: rest =>
      let '(text, tr) := run_invocation inv text in
      let '(text, tr') := run_invocations rest text in
      (text, tr ++ tr')
  end.

(** ** Reading a trace *)

Definition attempts (tr : Trace) : list Path := fst <$> tr.

Definition successes (tr : Trace) : list Path :=
  fst <$> List.filter snd tr.

(** A path that the tracking file gives back as it was written: it has no
    line break in it and [strip] leaves it as it is. *)
Definition clean (p : Path) : bool :=
  String.eqb (strip p) p && no_line_break_text p.

(** A tracking file to append to: there is none, or its text is empty or
    ends with a line feed. *)
Definition terminated (text : option string) : bool :=
  match text with
  | Some t => String.eqb t "" || endswith t newline
  | None => true
  end.

(** The tracking file [t] holds the line of [p]. *)
Definition has_line (t : option string) (p : Path) : Prop :=
  exists pre post, t = Some (pre +:+ p +:+ newline +:+ post).

(** What a trace records of a call. *)
Definition returned_true (r : Result bool) : bool :=
  match r with
  | Return true => true
  | _ => false
  end.

(** [calls h st tr st']: the calls of [_upload_single_video] recorded in
    [tr], made one after the other with the hashtags [h] and no description,
    lead from [st] to [st']. *)
Inductive calls (h : option (list string)) : State -> Trace -> State -> Prop :=
| calls_nil st : calls h st [] st
| calls_cons st b p r st1 tr st2 :
    _upload_single_video b p None h st = (r, st1) ->
    calls h st1 tr st2 ->
    calls h st ((p, returned_true r) :: tr) st2.

(** The tracking file [t'] is [t], or [t] with text appended. *)
Definition text_grows (t t' : option string) : Prop :=
  t' = t \/ exists suffix, t' = Some (default "" t +:+ suffix).

(** No path is tried again after a call for it returned [True]. *)
Definition never_again (tr : Trace) : Prop :=
  forall i j p r, (i < j)%nat -> tr !! i = Some (p, true) -> tr !! j = Some (p, r) -> False.

(** The driver is set up and the account is logged in. *)
Definition ready (s : Session) : bool :=
  s_chrome s && s_script s && (s_cookies s && s_cookie_login s || s_manual_login s).

(** The surroundings [b] with the outcomes [processing] and [completion] of
    the two waits of l.417-425 and l.463-478. *)
Definition with_waits (processing completion : Wait) (b : Browser) : Browser :=
  {| b_get := b_get b; b_file_input := b_file_input b; b_refresh := b_refresh b;
     b_processing := processing; b_captions := b_captions b; b_read := b_read b;
     b_draw := b_draw b; b_set_caption := b_set_caption b;
     b_post_click := b_post_click b; b_js_click := b_js_click b;
     b_completion := completion; b_current_url := b_current_url b;
     b_track_write := b_track_write b;
     b_error_screenshot := b_error_screenshot b; b_remove := b_remove b |}.

(** Surroundings in which every step of an upload succeeds. *)
Definition example_browser : Browser :=
  {| b_get := true; b_file_input := fun _ => true; b_refresh := fun _ => true;
     b_processing := Found; b_captions := Some ["sample.txt"];
     b_read := fun _ => Some "A caption"; b_draw := 0;
     b_set_caption := fun _ => None; b_post_click := fun _ => true;
     b_js_click := true; b_completion := Found; b_current_url := true;
     b_track_write := true; b_error_screenshot := None; b_remove := true |}.

(** A session in which the saved cookies log the account in. *)
Definition example_session : Session :=
  {| s_chrome := true; s_script := true; s_cookies := true;
     s_cookie_login := true; s_manual_login := false; s_saved := ∅ |}.

(** A session in which Chrome does not start. *)
Definition example_session_down : Session :=
  {| s_chrome := false; s_script := false; s_cookies := true;
     s_cookie_login := true; s_manual_login := false; s_saved := ∅ |}.

(** An uploader that has uploaded nothing, beside one rendered video. *)
Definition example_state : State :=
  {| files := {["output/video.mp4"]}; tracking := None;
     captions_dir := "captions"; uploaded_videos := ∅; driver := false |}.

(** A batch in which every upload succeeds. *)
Definition example_batch_of (limit : option Z) (lo hi : Z) : Batch :=
  {| hashtags := Some ["fyp"]; max_uploads := limit;
     min_delay := lo; max_delay := hi;
     browsers := fun _ => example_browser; delays := fun _ => 0%nat |}.

(** The same with no limit and the default delays. *)
Definition example_batch : Batch := example_batch_of None 3600 7200.

(** An uploader that has uploaded nothing, beside a directory of two
    videos. *)
Definition example_videos_state : State :=
  {| files := {["videos/a.mp4"; "videos/b.mp4"]}; tracking := None;
     captions_dir := "captions"; uploaded_videos := ∅; driver := false |}.

(** A run on the directory [dir], which holds the one video [a.mp4]. *)
Definition example_invocation (dir : Path) : Invocation :=
  {| inv_files := {[path_join dir "a.mp4"]};
     inv_captions_dir := "captions";
     inv_session := example_session;
     inv_batch := example_batch;
     inv_videos_dir := dir;
     inv_entries := Some ["a.mp4"] |}.

(** A later run on the directory of the rendered video, where a file is at
    the path of the video again. *)
Definition example_later_invocation : Invocation :=
  {| inv_files := {["output/video.mp4"]};
     inv_captions_dir := "captions";
     inv_session := example_session;
     inv_batch := example_batch;
     inv_videos_dir := "output";
     inv_entries := Some ["video.mp4"] |}.

(** The video paths a run can try are clean. *)
Definition clean_run (inv : Invocation) : Prop :=
  forall entries file, inv_entries inv = Some entries -> file ∈ entries ->
    has_extension upload_extensions file = true ->
    clean (path_join (inv_videos_dir inv) file) = true.

(** [os.listdir] names no entry twice. *)
Definition distinct_entries (inv : Invocation) : Prop :=
  forall entries, inv_entries inv = Some entries -> NoDup entries.

End Uploader.

(** * Facts about the built-ins *)

Lemma Qltb_lt x y : Qltb x y = true <-> x < y.
Proof.
  unfold Qltb. rewrite negb_true_iff. split.
  - intros H. apply Qnot_le_lt. intros Hle.
    apply Qle_bool_iff in Hle. congruence.
  - intros H. destruct (Qle_bool y x) eqn:E; [|reflexivity].
    apply Qle_bool_iff in E. exfalso. exact (Qlt_not_le _ _ H E).
Qed.

Lemma Qltb_nlt x y : Qltb x y = false <-> ~ x < y.
Proof. rewrite <- Qltb_lt. destruct (Qltb x y); split; congruence. Qed.

Lemma Qle_bool_nle x y : Qle_bool x y = false <-> ~ x <= y.
Proof. rewrite <- Qle_bool_iff. destruct (Qle_bool x y); split; congruence. Qed.

Lemma py_min_same x : py_min x x = x.
Proof. unfold py_min. destruct (Qltb x x); reflexivity. Qed.

Lemma is_empty_false {A} (l : list A) : is_empty l = false <-> l <> [].
Proof. destruct l; simpl; split; congruence. Qed.

Lemma find_filter_head {A} (f : A -> bool) (l : list A) (b : A) :
  List.find f l = Some b -> exists rest, List.filter f l = b :: rest.
Proof.
  induction l as [|a l IH]; simpl; [discriminate|].
  destruct (f a) eqn:E.
  - intros [= ->]. eauto.
  - exact IH.
Qed.

Lemma find_split {A} (f : A -> bool) (l : list A) (b : A) :
  List.find f l = Some b ->
  exists pre post, l = pre ++ b :: post /\ Forall (fun x => f x = false) pre /\ f b = true.
Proof.
  induction l as [|a l IH]; simpl; [discriminate|].
  destruct (f a) eqn:E.
  - intros [= ->]. exists [], l. auto.
  - intros H. destruct (IH H) as (pre & post & -> & Hpre & Hb).
    exists (a :: pre), post. auto.
Qed.

Lemma find_none_iff {A} (f : A -> bool) (l : list A) :
  List.find f l = None <-> Forall (fun x => f x = false) l.
Proof.
  induction l as [|a l IH]; simpl.
  - split; auto.
  - destruct (f a) eqn:E.
    + split; [discriminate|]. intros H. inversion H; congruence.
    + rewrite IH. split; [auto|]. intros H. inversion H; auto.
Qed.

Lemma elem_of_list_filter {A} (f : A -> bool) (l : list A) x :
  x ∈ List.filter f l <-> x ∈ l /\ f x = true.
Proof. rewrite !list_elem_of_In. apply List.filter_In. Qed.

Lemma nth_mod_in {A} (l : list A) (k : nat) (d : A) :
  l <> [] -> nth (k mod length l) l d ∈ l.
Proof.
  intros H. apply nth_elem_of, Nat.mod_upper_bound.
  destruct l; simpl; [congruence|lia].
Qed.

Module EditorProofs.
Import Editor.

(** ** The intro boundary *)

Lemma intro_end_time_next m bs nb :
  next_beat_after_intro m bs = Some nb -> intro_end_time m bs nb = nb.
Proof.
  unfold next_beat_after_intro, intro_end_time. intros H. cbv zeta.
  destruct (find_filter_head _ _ _ H) as [rest Hr]. rewrite Hr.
  apply py_min_same.
Qed.

(** ** The round robin *)

Lemma clip_at_lookup cs k : cs <> [] -> cs !! (k mod length cs)%nat = Some (clip_at cs k).
Proof.
  intros Hcs. unfold clip_at.
  assert (Hlt : (k mod length cs < length cs)%nat).
  { apply Nat.mod_upper_bound. destruct cs; simpl; [congruence|lia]. }
  destruct (lookup_lt_is_Some_2 _ _ Hlt) as [c Hc].
  rewrite Hc. f_equal. symmetry. apply nth_lookup_Some with (d := ""%string) in Hc.
  exact Hc.
Qed.

Lemma loop_body_step cuts cs T j a b segs k :
  cs <> [] -> T !! j = Some a -> T !! (j + 1)%nat = Some b ->
  loop_body cuts cs T (segs, k) j
  = (segs ++ List.filter (made cuts) [mkSegment a b (clip_at cs k)], S k).
Proof.
  intros Hcs Ha Hb. unfold loop_body. rewrite Ha, Hb, (clip_at_lookup cs k Hcs).
  simpl. unfold made. simpl.
  destruct (cuts (clip_at cs k) a b); [reflexivity|].
  now rewrite app_nil_r.
Qed.

Lemma beat_loop_from cuts cs T :
  cs <> [] ->
  forall m j segs k, length T = (j + m + 1)%nat ->
    fold_left (loop_body cuts cs T) (seq j m) (segs, k)
    = (segs ++ List.filter (made cuts) (round_robin cs k (drop j T)), (k + m)%nat).
Proof.
  intros Hcs. induction m as [|m IH]; intros j segs k Hlen.
  - simpl. assert (Hd : length (drop j T) = 1%nat) by (rewrite length_drop; lia).
    destruct (drop j T) as [|a [|b r]]; simpl in Hd; try discriminate.
    simpl. rewrite app_nil_r. f_equal. lia.
  - assert (Hd : length (drop j T) = S (S m)) by (rewrite length_drop; lia).
    destruct (drop j T) as [|a [|b r]] eqn:E; simpl in Hd; try discriminate.
    assert (Ha : T !! j = Some a).
    { rewrite <- (Nat.add_0_r j), <- lookup_drop, E. reflexivity. }
    assert (Hb : T !! (j + 1)%nat = Some b).
    { rewrite <- lookup_drop, E. reflexivity. }
    assert (E' : drop (S j) T = b :: r).
    { replace (S j) with (j + 1)%nat by lia. rewrite <- drop_drop, E. reflexivity. }
    cbn [seq fold_left]. rewrite (loop_body_step cuts cs T j a b segs k Hcs Ha Hb).
    rewrite IH by lia. rewrite E'. cbn [round_robin List.filter].
    simpl. destruct (made cuts (mkSegment a b (clip_at cs k))).
    + rewrite <- app_assoc. simpl. f_equal. lia.
    + rewrite app_nil_r. f_equal. lia.
Qed.

Lemma beat_loop_round_robin cuts cs T segs k :
  cs <> [] ->
  beat_loop cuts cs T (segs, k)
  = (segs ++ List.filter (made cuts) (round_robin cs k T), (k + (length T - 1))%nat).
Proof.
  intros Hcs. unfold beat_loop. destruct T as [|a T].
  - simpl. rewrite app_nil_r. f_equal. lia.
  - rewrite (beat_loop_from cuts cs (a :: T) Hcs (length (a :: T) - 1) 0 segs k).
    + reflexivity.
    + simpl. lia.
Qed.

Lemma final_segment_closing cuts cs T D segs k :
  cs <> [] ->
  fst (final_segment cuts cs T D (segs, k))
  = segs ++ List.filter (made cuts) (closing cs k T D).
Proof.
  intros Hcs. unfold final_segment, closing.
  destruct (last T) as [b|]; [|now rewrite app_nil_r].
  destruct (Qltb b D); [|now rewrite app_nil_r].
  rewrite (clip_at_lookup cs k Hcs). simpl. unfold made. simpl.
  destruct (cuts (clip_at cs k) b D); [reflexivity|now rewrite app_nil_r].
Qed.

Lemma load_clips_nonempty loads remaining intro : load_clips loads remaining intro <> [].
Proof. unfold load_clips. destruct (List.filter loads remaining); discriminate. Qed.

Lemma order_clips_nonempty forward clips : clips <> [] -> order_clips forward clips <> [].
Proof.
  intros H. destruct forward; simpl; [exact H|].
  intros E. apply H. apply (f_equal (@rev _)) in E. now rewrite rev_involutive in E.
Qed.

Lemma clip_sequence_nonempty env intro forward :
  order_clips forward (load_clips (loads env) (zeta_clips env) intro) <> [].
Proof. apply order_clips_nonempty, load_clips_nonempty. Qed.

(** A run depends on the generator through its two choices only. *)
Lemma plan_eq env s :
  plan env s = plan_of_choices env (chosen_intro env s) (chosen_forward s).
Proof.
  unfold plan, plan_of_choices, create_beat_synchronized_video.
  unfold chosen_intro, chosen_forward. cbv zeta.
  destruct (is_empty (goon_clips env) && is_empty (zeta_clips env)); [reflexivity|].
  unfold bind at 1. unfold random_choice at 1.
  set (intro := nth _ _ _).
  destruct (is_empty (beats env)); [reflexivity|].
  destruct (next_beat_after_intro _ _) as [nb|] eqn:Hnb; [|reflexivity].
  destruct (negb (loads env intro)); [reflexivity|].
  rewrite (intro_end_time_next _ _ _ Hnb).
  destruct (negb (cuts env intro 0 nb)); [reflexivity|].
  unfold bind, random_choice.
  set (cs := order_clips _ _).
  assert (Hcs : cs <> []) by apply clip_sequence_nonempty.
  rewrite beat_loop_round_robin by exact Hcs.
  rewrite final_segment_closing by exact Hcs.
  simpl. unfold ret, segments_of. simpl.
  now rewrite List.filter_app.
Qed.

Lemma clips_exist_iff env :
  is_empty (goon_clips env) && is_empty (zeta_clips env) = false
  <-> goon_clips env <> [] \/ zeta_clips env <> [].
Proof.
  destruct (goon_clips env), (zeta_clips env); simpl; split; intros H;
    try discriminate; try reflexivity; auto.
  destruct H; congruence.
Qed.

(** ** Errors *)

(** C5: with an empty beat list the planner raises the error of l.161, "No
    beats detected or provided", and so returns no segment.  The clip pool is
    not empty, as the planner's inputs require: the error of the empty pool
    is raised first. *)
Theorem C5_empty_beats_raise_NoBeats (env : Env) (s : RandomState) :
  goon_clips env <> [] \/ zeta_clips env <> [] ->
  beats env = [] ->
  plan env s = inl NoBeats.
Proof.
  intros Hclips Hbeats. rewrite plan_eq. unfold plan_of_choices.
  apply clips_exist_iff in Hclips. rewrite Hclips, Hbeats. reflexivity.
Qed.

Lemma C5_witness :
  plan {| goon_clips := ["clips/goon/intro.mp4"%string];
          zeta_clips := ["clips/edit/a.mp4"%string];
          loads := fun _ => true; cuts := fun _ _ _ => true;
          beats := []; audio_duration := 10; MIN_INTRO_DURATION := 2 |}
       (constant_draws 0)
  = inl NoBeats.
Proof.
  apply C5_empty_beats_raise_NoBeats; simpl; [left; discriminate | reflexivity].
Defined.

Lemma next_beat_first m bs b :
  next_beat_after_intro m bs = Some b -> first_beat_at_least m bs b.
Proof.
  intros H. destruct (find_split _ _ _ H) as (pre & post & -> & Hpre & Hb).
  exists pre, post. split; [reflexivity|]. split.
  - eapply Forall_impl; [exact Hpre|]. intros x Hx. now apply Qle_bool_nle.
  - now apply Qle_bool_iff.
Qed.

Lemma next_beat_none m bs :
  next_beat_after_intro m bs = None <-> Forall (fun b => ~ m <= b) bs.
Proof.
  unfold next_beat_after_intro. rewrite find_none_iff.
  split; intros H; (eapply Forall_impl; [exact H|]); intros x Hx; now apply Qle_bool_nle.
Qed.

(** The first segment of a plan is the intro: it starts at 0, ends at the
    first beat that is at least [MIN_INTRO_DURATION] and is cut from the
    chosen intro clip. *)
Lemma plan_success env s segs :
  plan env s = inr segs ->
  exists nb,
    next_beat_after_intro (MIN_INTRO_DURATION env) (beats env) = Some nb /\
    loads env (chosen_intro env s) = true /\
    segs = segments_of env (chosen_intro env s) (clip_sequence_of env s) nb.
Proof.
  rewrite plan_eq. unfold plan_of_choices.
  destruct (_ && _); [discriminate|].
  destruct (is_empty (beats env)); [discriminate|].
  destruct (next_beat_after_intro _ _) as [nb|]; [|discriminate].
  destruct (loads env _) eqn:Hl; [|discriminate]. simpl.
  destruct (negb _); [discriminate|].
  intros [= <-]. exists nb. auto.
Qed.

Lemma first_beat_next m bs b :
  first_beat_at_least m bs b -> next_beat_after_intro m bs = Some b.
Proof.
  intros (pre & post & -> & Hpre & Hb). unfold next_beat_after_intro.
  induction Hpre as [|x pre Hx Hpre IH]; simpl.
  - apply Qle_bool_iff in Hb. now rewrite Hb.
  - destruct (Qle_bool m x) eqn:E; [|exact IH].
    apply Qle_bool_iff in E. contradiction.
Qed.

(** C3: for a non-empty beat list (and a non-empty clip pool) the planner
    raises the error of l.167, "No beat found after MIN_INTRO_DURATION",
    exactly when no beat is at least [MIN_INTRO_DURATION].  When [b] is the
    first beat that is at least [MIN_INTRO_DURATION], the planner returns a
    plan as soon as the chosen intro clip loads and its cut from 0 to [b]
    succeeds, and the plan starts with the intro segment from 0 to [b]; and
    every plan the planner returns starts with the intro segment from 0 to
    that beat. *)
Theorem C3_intro_boundary_first_beat (env : Env) (s : RandomState) :
  goon_clips env <> [] \/ zeta_clips env <> [] ->
  beats env <> [] ->
  (plan env s = inl NoIntroBoundary
   <-> Forall (fun b => ~ MIN_INTRO_DURATION env <= b) (beats env)) /\
  (forall b, first_beat_at_least (MIN_INTRO_DURATION env) (beats env) b ->
     loads env (chosen_intro env s) = true ->
     cuts env (chosen_intro env s) 0 b = true ->
     exists rest, plan env s = inr (mkSegment 0 b (chosen_intro env s) :: rest)) /\
  (forall segs, plan env s = inr segs ->
     exists b rest,
       segs = mkSegment 0 b (chosen_intro env s) :: rest /\
       first_beat_at_least (MIN_INTRO_DURATION env) (beats env) b).
Proof.
  intros Hclips Hbeats. split; [|split].
  - rewrite <- next_beat_none, plan_eq. unfold plan_of_choices.
    apply clips_exist_iff in Hclips. apply is_empty_false in Hbeats.
    rewrite Hclips, Hbeats.
    destruct (next_beat_after_intro _ _) as [nb|]; [|tauto].
    split; [|discriminate].
    destruct (negb (loads _ _)); [discriminate|].
    destruct (negb (cuts _ _ _ _)); discriminate.
  - intros b Hb Hload Hcut. apply first_beat_next in Hb.
    rewrite plan_eq. unfold plan_of_choices.
    apply clips_exist_iff in Hclips. apply is_empty_false in Hbeats.
    rewrite Hclips, Hbeats, Hb, Hload, Hcut. cbn [negb].
    unfold segments_of. cbv zeta. eexists. reflexivity.
  - intros segs Hplan. destruct (plan_success _ _ _ Hplan) as (nb & Hnb & _ & ->).
    eexists nb, _. split; [reflexivity|]. now apply next_beat_first.
Qed.

(** The example of the specification, where the only beat is 5 and the
    minimum intro duration is 10, and an input on which the planner plans:
    of the beats 1, 3, 6 and 9 the first that is at least 2 is 3. *)
Lemma C3_witness :
  plan {| goon_clips := ["clips/goon/intro.mp4"%string];
          zeta_clips := ["clips/edit/a.mp4"%string];
          loads := fun _ => true; cuts := fun _ _ _ => true;
          beats := [5]; audio_duration := 30; MIN_INTRO_DURATION := 10 |}
       (constant_draws 0)
  = inl NoIntroBoundary /\
  exists rest,
    plan example_env (constant_draws 0)
    = inr (mkSegment 0 3 "clips/goon/intro.mp4" :: rest).
Proof.
  split.
  - apply C3_intro_boundary_first_beat; simpl.
    + left; discriminate.
    + discriminate.
    + repeat constructor. intros H. vm_compute in H. now apply H.
  - assert (H1 : goon_clips example_env <> [] \/ zeta_clips example_env <> []).
    { left. discriminate. }
    assert (H2 : beats example_env <> []) by discriminate.
    apply (proj1 (proj2 (C3_intro_boundary_first_beat example_env (constant_draws 0)
                           H1 H2)) 3).
    + exists [1], [6; 9]. split; [reflexivity|]. split.
      * repeat constructor. intros H. vm_compute in H. now apply H.
      * vm_compute. discriminate.
    + reflexivity.
    + reflexivity.
Defined.

(** C4, against the claim: the plan the specification gives for its example
    is not the plan of the source, which plans no segment from 3 to 6. *)
Lemma C4_counterexample :
  chosen_forward (constant_draws 0) = true /\
  plan example_env (constant_draws 0)
  <> inr [mkSegment 0 3 "clips/goon/intro.mp4";
          mkSegment 3 6 "clips/edit/a.mp4";
          mkSegment 6 9 "clips/edit/b.mp4";
          mkSegment 9 10 "clips/edit/a.mp4"].
Proof. split; [reflexivity|]. intros H. vm_compute in H. discriminate H. Qed.

(** C4: on the example of the specification (beats 1, 3, 6, 9, an audio of
    10 seconds, a minimum intro of 2 seconds, two content clips) the intro
    boundary is 3 and, in the forward direction, the source plans three
    segments: the intro from 0 to 3, then 6 to 9 on clip 0 and 9 to 10 on
    clip 1.  No segment is planned for the span from 3 to 6, since l.245
    keeps the beats strictly after the intro boundary. *)
Theorem C4_example_plan (s : RandomState) :
  chosen_forward s = true ->
  next_beat_after_intro (MIN_INTRO_DURATION example_env) (beats example_env) = Some 3 /\
  plan example_env s
  = inr [mkSegment 0 3 "clips/goon/intro.mp4";
         mkSegment 6 9 "clips/edit/a.mp4";
         mkSegment 9 10 "clips/edit/b.mp4"].
Proof.
  intros Hf. split; [reflexivity|]. rewrite plan_eq, Hf.
  unfold chosen_intro, next_index. cbn [example_env goon_clips zeta_clips intro_pool
    is_empty length]. rewrite Nat.mod_1_r. reflexivity.
Qed.

Lemma C4_witness :
  next_beat_after_intro (MIN_INTRO_DURATION example_env) (beats example_env) = Some 3 /\
  plan example_env (constant_draws 0)
  = inr [mkSegment 0 3 "clips/goon/intro.mp4";
         mkSegment 6 9 "clips/edit/a.mp4";
         mkSegment 9 10 "clips/edit/b.mp4"].
Proof. apply C4_example_plan. reflexivity. Defined.

(** ** The clips of the segments *)

Lemma clip_at_in cs k : cs <> [] -> clip_at cs k ∈ cs.
Proof.
  intros Hcs. apply list_elem_of_lookup. exists (k mod length cs)%nat.
  now apply clip_at_lookup.
Qed.

Lemma round_robin_clips cs k T :
  cs <> [] -> Forall (fun seg => seg_clip seg ∈ cs) (round_robin cs k T).
Proof.
  intros Hcs. revert k. induction T as [|a T IH]; intros k; simpl; [constructor|].
  destruct T as [|b T]; [constructor|].
  constructor; [now apply clip_at_in | apply IH].
Qed.

Lemma closing_clips cs k T D :
  cs <> [] -> Forall (fun seg => seg_clip seg ∈ cs) (closing cs k T D).
Proof.
  intros Hcs. unfold closing. destruct (last T); [|constructor].
  destruct (Qltb _ _); repeat constructor. now apply clip_at_in.
Qed.

Lemma Forall_list_filter {A} (P : A -> Prop) (f : A -> bool) (l : list A) :
  Forall P l -> Forall P (List.filter f l).
Proof.
  induction 1 as [|x l Hx Hl IH]; simpl; [constructor|].
  destruct (f x); [constructor|]; assumption.
Qed.

(** The segments after the intro are cut from clips of the clip sequence. *)
Lemma segments_of_clips env intro cs nb :
  cs <> [] ->
  exists rest, segments_of env intro cs nb = mkSegment 0 nb intro :: rest /\
               Forall (fun seg => seg_clip seg ∈ cs) rest.
Proof.
  intros Hcs. eexists. split; [reflexivity|].
  apply Forall_list_filter, Forall_app. split.
  - now apply round_robin_clips.
  - now apply closing_clips.
Qed.

(** C6, against the claim: with an intro clip and an empty content folder
    the planner returns a plan; no error is raised for the empty pool. *)
Lemma C6_counterexample :
  zeta_clips {| goon_clips := ["clips/goon/intro.mp4"%string]; zeta_clips := [];
                loads := fun _ => true; cuts := fun _ _ _ => true;
                beats := [1; 3; 6; 9]; audio_duration := 10;
                MIN_INTRO_DURATION := 2 |} = [] /\
  plan {| goon_clips := ["clips/goon/intro.mp4"%string]; zeta_clips := [];
          loads := fun _ => true; cuts := fun _ _ _ => true;
          beats := [1; 3; 6; 9]; audio_duration := 10;
          MIN_INTRO_DURATION := 2 |} (constant_draws 0)
  = inr [mkSegment 0 3 "clips/goon/intro.mp4";
         mkSegment 6 9 "clips/goon/intro.mp4";
         mkSegment 9 10 "clips/goon/intro.mp4"].
Proof. split; reflexivity. Qed.

(** C6, amended: the planner raises the error of l.150, "No video files
    found", exactly when both clip folders are empty, and nothing catches it.
    When only the content folder is empty the planner goes on with the intro
    clip in place of the pool (l.232-234): every segment of the plan it
    returns is cut from the intro clip. *)
Theorem C6_empty_pool_reuses_intro (env : Env) (s : RandomState) :
  (plan env s = inl NoVideoFiles <-> goon_clips env = [] /\ zeta_clips env = []) /\
  (zeta_clips env = [] ->
   forall segs, plan env s = inr segs ->
     Forall (fun seg => seg_clip seg = chosen_intro env s) segs).
Proof.
  split.
  - rewrite plan_eq. unfold plan_of_choices.
    destruct (goon_clips env) as [|g gs], (zeta_clips env) as [|z zs]; simpl;
      try (split; [|intros [? ?]; discriminate]);
      try (split; [reflexivity|discriminate]); try tauto;
      destruct (is_empty (beats env)); try discriminate;
      destruct (next_beat_after_intro _ _); try discriminate;
      destruct (negb (loads _ _)); try discriminate;
      destruct (negb (cuts _ _ _ _)); discriminate.
  - intros Hz segs Hplan.
    destruct (plan_success _ _ _ Hplan) as (nb & _ & _ & ->).
    unfold clip_sequence_of, load_clips. rewrite Hz. simpl.
    set (intro := chosen_intro env s).
    assert (Hcs : order_clips (chosen_forward s) [intro] = [intro])
      by (destruct (chosen_forward s); reflexivity).
    rewrite Hcs.
    destruct (segments_of_clips env intro [intro] nb) as (rest & -> & Hrest);
      [discriminate|].
    constructor; [reflexivity|].
    eapply Forall_impl; [exact Hrest|]. intros seg Hin.
    simpl in Hin. now apply list_elem_of_singleton in Hin.
Qed.

Lemma C6_witness :
  Forall (fun seg => seg_clip seg = "clips/goon/intro.mp4"%string)
    [mkSegment 0 3 "clips/goon/intro.mp4";
     mkSegment 6 9 "clips/goon/intro.mp4";
     mkSegment 9 10 "clips/goon/intro.mp4"].
Proof.
  apply (proj2 (C6_empty_pool_reuses_intro
    {| goon_clips := ["clips/goon/intro.mp4"%string]; zeta_clips := [];
       loads := fun _ => true; cuts := fun _ _ _ => true;
       beats := [1; 3; 6; 9]; audio_duration := 10;
       MIN_INTRO_DURATION := 2 |} (constant_draws 0))); reflexivity.
Defined.

(** ** Determinism *)

(** C7: two runs on the same inputs that make the same choices (the same
    intro clip at l.153 and the same direction at l.237) end alike: with the
    same error, or with the same segments, boundaries and clips. *)
Theorem C7_same_choices_same_plan (env : Env) (s1 s2 : RandomState) :
  chosen_intro env s1 = chosen_intro env s2 ->
  chosen_forward s1 = chosen_forward s2 ->
  plan env s1 = plan env s2.
Proof. intros Hi Hf. rewrite !plan_eq, Hi, Hf. reflexivity. Qed.

Lemma C7_witness :
  plan example_env (constant_draws 0) = plan example_env (constant_draws 2).
Proof. apply C7_same_choices_same_plan; reflexivity. Defined.

(** C7, against the claim: two runs on the same inputs and in the same
    direction that do not end alike.  The intro folder holds two clips and
    the draw of l.153 differs. *)
Lemma C7_counterexample :
  let env := {| goon_clips := ["clips/goon/x.mp4"%string; "clips/goon/y.mp4"%string];
                zeta_clips := ["clips/edit/a.mp4"%string; "clips/edit/b.mp4"%string];
                loads := fun _ => true; cuts := fun _ _ _ => true;
                beats := [1; 3; 6; 9]; audio_duration := 10;
                MIN_INTRO_DURATION := 2 |} in
  let s1 := constant_draws 0 in
  let s2 := {| rs_draw := fun i => match i with O => 1%nat | _ => 0%nat end;
               rs_pos := 0 |} in
  chosen_forward s1 = chosen_forward s2 /\ plan env s1 <> plan env s2.
Proof. split; [reflexivity|]. intros H. vm_compute in H. discriminate H. Qed.

(** ** The segments after the intro *)

Lemma round_robin_cons cs k a b T :
  round_robin cs k (a :: b :: T)
  = mkSegment a b (clip_at cs k) :: round_robin cs (S k) (b :: T).
Proof. reflexivity. Qed.

Lemma round_robin_length cs k T : length (round_robin cs k T) = (length T - 1)%nat.
Proof.
  revert k. induction T as [|a T IH]; intros k; [reflexivity|].
  destruct T as [|b T]; [reflexivity|].
  rewrite round_robin_cons. cbn [length]. rewrite IH. cbn [length]. lia.
Qed.

Lemma round_robin_lookup cs T :
  forall k i a b, T !! i = Some a -> T !! S i = Some b ->
    round_robin cs k T !! i = Some (mkSegment a b (clip_at cs (k + i))).
Proof.
  induction T as [|a0 T IH]; intros k i a b Ha Hb; [discriminate|].
  destruct T as [|b0 T]; [destruct i; discriminate|].
  destruct i as [|i].
  - simpl in Ha, Hb. injection Ha as ->. injection Hb as ->.
    rewrite round_robin_cons, Nat.add_0_r. reflexivity.
  - rewrite round_robin_cons.
    change (round_robin cs (S k) (b0 :: T) !! i
            = Some (mkSegment a b (clip_at cs (k + S i)))).
    rewrite (IH (S k) i a b Ha Hb). do 3 f_equal. lia.
Qed.

Lemma closing_length cs k T D :
  length (closing cs k T D)
  = match last T with
    | Some b => if Qltb b D then 1%nat else 0%nat
    | None => 0%nat
    end.
Proof. unfold closing. destruct (last T); [destruct (Qltb _ _)|]; reflexivity. Qed.

Lemma list_filter_all {A} (f : A -> bool) (l : list A) :
  (forall x, f x = true) -> List.filter f l = l.
Proof.
  intros H. induction l as [|x l IH]; simpl; [reflexivity|]. now rewrite H, IH.
Qed.

(** C2: when some beat is at least [MIN_INTRO_DURATION], the chosen intro
    clip loads and the cuts succeed, the plan is the intro segment followed
    by one segment for each pair of neighbours of [tail], the beats strictly
    after the intro boundary: the pair number [i] is cut from
    [clip_sequence[i mod clip_sequence_len]].  When the last beat of [tail]
    is before the end of the audio, one more segment runs from it to the end
    of the audio on the next clip of the round robin.  Nothing else is
    planned. *)
Theorem C2_round_robin_over_tail (env : Env) (s : RandomState) (nb : Time) :
  goon_clips env <> [] \/ zeta_clips env <> [] ->
  next_beat_after_intro (MIN_INTRO_DURATION env) (beats env) = Some nb ->
  loads env (chosen_intro env s) = true ->
  (forall p a b, cuts env p a b = true) ->
  let tail := beats_after nb (beats env) in
  let cs := clip_sequence_of env s in
  exists post,
    plan env s = inr (mkSegment 0 nb (chosen_intro env s) :: post) /\
    (forall i a b, tail !! i = Some a -> tail !! S i = Some b ->
       exists c, cs !! (i mod length cs)%nat = Some c /\
                 post !! i = Some (mkSegment a b c)) /\
    (forall a, last tail = Some a -> a < audio_duration env ->
       exists c, cs !! ((length tail - 1) mod length cs)%nat = Some c /\
                 post !! (length tail - 1)%nat
                 = Some (mkSegment a (audio_duration env) c)) /\
    length post
    = (length tail - 1
       + length (closing cs (length tail - 1) tail (audio_duration env)))%nat.
Proof.
  intros Hclips Hnb Hload Hcuts tail cs.
  assert (Hcs : cs <> []) by apply clip_sequence_nonempty.
  exists (round_robin cs 0 tail
          ++ closing cs (length tail - 1) tail (audio_duration env)).
  split; [|split; [|split]].
  - rewrite plan_eq. unfold plan_of_choices.
    apply clips_exist_iff in Hclips. rewrite Hclips.
    assert (Hb : is_empty (beats env) = false).
    { destruct (beats env); [discriminate|reflexivity]. }
    rewrite Hb, Hnb, Hload, Hcuts. simpl. unfold segments_of.
    rewrite list_filter_all; [reflexivity|]. intros seg. apply Hcuts.
  - intros i a b Ha Hb. exists (clip_at cs i). split; [now apply clip_at_lookup|].
    rewrite lookup_app_l.
    + now rewrite (round_robin_lookup cs tail 0 i a b Ha Hb).
    + rewrite round_robin_length. apply lookup_lt_Some in Hb. lia.
  - intros a Ha Hlt. exists (clip_at cs (length tail - 1)).
    split; [now apply clip_at_lookup|].
    rewrite lookup_app_r by (rewrite round_robin_length; lia).
    rewrite round_robin_length, Nat.sub_diag. unfold closing. rewrite Ha.
    apply Qltb_lt in Hlt. rewrite Hlt. reflexivity.
  - now rewrite length_app, round_robin_length.
Qed.

Lemma C2_witness :
  exists post,
    plan example_env (constant_draws 0)
    = inr (mkSegment 0 3 "clips/goon/intro.mp4" :: post) /\
    (forall i a b, [6; 9] !! i = Some a -> [6; 9] !! S i = Some b ->
       exists c, ["clips/edit/a.mp4"%string; "clips/edit/b.mp4"%string]
                   !! (i mod 2)%nat = Some c /\
                 post !! i = Some (mkSegment a b c)) /\
    (forall a, last [6; 9] = Some a -> a < 10 ->
       exists c, ["clips/edit/a.mp4"%string; "clips/edit/b.mp4"%string]
                   !! ((2 - 1) mod 2)%nat = Some c /\
                 post !! (2 - 1)%nat = Some (mkSegment a 10 c)) /\
    length post = 2%nat.
Proof.
  apply (C2_round_robin_over_tail example_env (constant_draws 0) 3).
  - left; discriminate.
  - reflexivity.
  - reflexivity.
  - reflexivity.
Defined.

(** ** Order and coverage *)

Lemma beats_after_gt t bs : Forall (fun b => t < b) (beats_after t bs).
Proof.
  unfold beats_after. induction bs as [|b bs IH]; simpl; [constructor|].
  destruct (Qltb t b) eqn:E; [|exact IH].
  constructor; [now apply Qltb_lt | exact IH].
Qed.

Lemma StronglySorted_list_filter {A} (R : A -> A -> Prop) (f : A -> bool) l :
  StronglySorted R l -> StronglySorted R (List.filter f l).
Proof.
  induction 1 as [|x l Hl IH Hx]; simpl; [constructor|].
  destruct (f x); [|exact IH].
  constructor; [exact IH | now apply Forall_list_filter].
Qed.

Lemma StronglySorted_neighbours {A} (R : A -> A -> Prop) l :
  StronglySorted R l ->
  forall i a b, l !! i = Some a -> l !! S i = Some b -> R a b.
Proof.
  induction 1 as [|x l Hl IH Hx]; intros i a b Ha Hb; [discriminate|].
  destruct i as [|i].
  - injection Ha as ->. simpl in Hb.
    rewrite Forall_forall in Hx. apply Hx.
    apply list_elem_of_lookup. eauto.
  - exact (IH i a b Ha Hb).
Qed.

Lemma last_list_filter {A} (f : A -> bool) (l : list A) (x : A) :
  last l = Some x -> f x = true -> last (List.filter f l) = Some x.
Proof.
  intros Hl Hf. induction l as [|y l IH]; [discriminate|].
  destruct l as [|z l].
  - injection Hl as ->. simpl. now rewrite Hf.
  - change (last (y :: z :: l)) with (last (z :: l)) in Hl.
    specialize (IH Hl).
    change (List.filter f (y :: z :: l))
      with (if f y then y :: List.filter f (z :: l) else List.filter f (z :: l)).
    destruct (f y); [|exact IH].
    destruct (List.filter f (z :: l)) as [|w r] eqn:E; [discriminate|].
    exact IH.
Qed.

Lemma round_robin_spans (R : Q -> Q -> Prop) cs T :
  (forall i a b, T !! i = Some a -> T !! S i = Some b -> R a b) ->
  forall k, Forall (fun seg => R (seg_start seg) (seg_end seg)) (round_robin cs k T).
Proof.
  induction T as [|a T IH]; intros H k; [constructor|].
  destruct T as [|b T]; [constructor|].
  rewrite round_robin_cons. constructor.
  - exact (H 0%nat a b eq_refl eq_refl).
  - apply IH. intros i x y Hx Hy. exact (H (S i) x y Hx Hy).
Qed.

(** The first of the segments after the intro starts at the first beat
    after the intro boundary. *)
Lemma post_head_start cs k k' b T D seg :
  head (round_robin cs k (b :: T) ++ closing cs k' (b :: T) D) = Some seg ->
  seg_start seg = b.
Proof.
  destruct T as [|c T].
  - unfold closing. simpl. destruct (Qltb b D); [|discriminate].
    now intros [= <-].
  - rewrite round_robin_cons. now intros [= <-].
Qed.

Lemma contiguous_cons x l :
  (forall y, head l = Some y -> seg_end x == seg_start y) ->
  contiguous l -> contiguous (x :: l).
Proof.
  intros Hx Hl [|i] a b Ha Hb.
  - injection Ha as <-. apply Hx. destruct l; [discriminate|]. exact Hb.
  - exact (Hl i a b Ha Hb).
Qed.

Lemma closing_cons cs k a b T D :
  closing cs k (a :: b :: T) D = closing cs k (b :: T) D.
Proof. reflexivity. Qed.

Lemma contiguous_post cs k' T D :
  forall k, contiguous (round_robin cs k T ++ closing cs k' T D).
Proof.
  induction T as [|a T IH]; intros k.
  - intros i x y Hx. destruct i; discriminate.
  - destruct T as [|b T].
    + unfold closing. simpl. destruct (Qltb a D); intros [|i] x y Hx Hy; discriminate.
    + rewrite round_robin_cons, closing_cons. cbn [app].
      apply contiguous_cons; [|apply IH].
      intros y Hy. apply post_head_start in Hy. rewrite Hy. reflexivity.
Qed.

(** C1, against the claim: with the single beat 3 in an audio of 10 seconds
    the input is valid and the planner succeeds, but the plan is the intro
    segment from 0 to 3 alone and ends before the audio does. *)
Lemma C1_counterexample :
  valid_input {| goon_clips := ["clips/goon/intro.mp4"%string];
                 zeta_clips := ["clips/edit/a.mp4"%string];
                 loads := fun _ => true; cuts := fun _ _ _ => true;
                 beats := [3]; audio_duration := 10; MIN_INTRO_DURATION := 2 |} /\
  plan {| goon_clips := ["clips/goon/intro.mp4"%string];
          zeta_clips := ["clips/edit/a.mp4"%string];
          loads := fun _ => true; cuts := fun _ _ _ => true;
          beats := [3]; audio_duration := 10; MIN_INTRO_DURATION := 2 |}
       (constant_draws 0)
  = inr [mkSegment 0 3 "clips/goon/intro.mp4"] /\
  ~ covers 10 [mkSegment 0 3 "clips/goon/intro.mp4"].
Proof.
  split; [|split].
  - unfold valid_input. simpl. repeat split; try discriminate.
    repeat constructor.
  - reflexivity.
  - intros (_ & _ & final & Hlast & Hend).
    injection Hlast as <-. discriminate Hend.
Qed.

(** C1, amended: on a valid input, when the planner succeeds and the cuts
    succeed, the plan starts with the intro segment, from 0 to the first
    beat that is at least [MIN_INTRO_DURATION]; no segment ends before it
    starts; no segment starts before the one before it ends; from the second
    segment on, each segment ends where the next one starts; and when the
    last beat is after the intro boundary and before the end of the audio,
    the last segment ends with the audio. *)
Theorem C1_plan_in_order (env : Env) (s : RandomState) (segs : list Segment) :
  valid_input env ->
  (forall p a b, cuts env p a b = true) ->
  plan env s = inr segs ->
  exists intro rest,
    segs = intro :: rest /\
    seg_start intro == 0 /\
    first_beat_at_least (MIN_INTRO_DURATION env) (beats env) (seg_end intro) /\
    Forall (fun seg => seg_start seg <= seg_end seg) segs /\
    no_overlap segs /\
    contiguous rest /\
    (forall bl, last (beats env) = Some bl ->
       seg_end intro < bl -> bl < audio_duration env ->
       exists final, last segs = Some final /\
                     seg_end final == audio_duration env).
Proof.
  intros (Hne & Hsorted & HD & Hmin & Hz) Hcuts Hplan.
  destruct (plan_success _ _ _ Hplan) as (nb & Hnb & _ & ->).
  set (intro := chosen_intro env s). set (cs := clip_sequence_of env s).
  assert (Hcs : cs <> []) by apply clip_sequence_nonempty.
  unfold segments_of. rewrite list_filter_all by (intros seg; apply Hcuts).
  pose proof (next_beat_first _ _ _ Hnb) as Hfirst.
  assert (HT : StronglySorted Qlt (beats_after nb (beats env)))
    by now apply StronglySorted_list_filter.
  pose proof (beats_after_gt nb (beats env)) as Hgt.
  assert (HlT : forall bl, last (beats env) = Some bl -> nb < bl ->
                  last (beats_after nb (beats env)) = Some bl).
  { intros bl Hbl Hlt. apply last_list_filter; [exact Hbl | now apply Qltb_lt]. }
  generalize dependent (beats_after nb (beats env)). intros T HT Hgt HlT.
  set (post := round_robin cs 0 T ++ closing cs (length T - 1) T (audio_duration env)).
  assert (Hpost : contiguous post) by apply contiguous_post.
  exists (mkSegment 0 nb intro), post. simpl.
  split; [reflexivity|]. split; [reflexivity|]. split; [exact Hfirst|].
  split; [|split; [|split]].
  - constructor.
    + simpl. destruct Hfirst as (_ & _ & _ & _ & Hle).
      eapply Qle_trans; eassumption.
    + apply Forall_app. split.
      * apply round_robin_spans. intros i a b Ha Hb.
        apply Qlt_le_weak. exact (StronglySorted_neighbours _ _ HT i a b Ha Hb).
      * unfold closing. destruct (last T) as [b|]; [|constructor].
        destruct (Qltb b (audio_duration env)) eqn:E; [|constructor].
        repeat constructor. simpl. now apply Qlt_le_weak, Qltb_lt.
  - intros [|i] a b Ha Hb.
    + injection Ha as <-. simpl in Hb |- *.
      destruct T as [|t T']; [discriminate|].
      assert (Hs : seg_start b = t).
      { apply (post_head_start cs 0 (length (t :: T') - 1) t T' (audio_duration env)).
        fold post. destruct post; [discriminate|]. exact Hb. }
      rewrite Hs. apply Qlt_le_weak. now inversion Hgt.
    + rewrite (Hpost i a b Ha Hb). apply Qle_refl.
  - exact Hpost.
  - intros bl Hbl Hlt HltD.
    specialize (HlT bl Hbl Hlt).
    exists (mkSegment bl (audio_duration env) (clip_at cs (length T - 1))).
    split; [|reflexivity].
    assert (Hc : closing cs (length T - 1) T (audio_duration env)
                 = [mkSegment bl (audio_duration env) (clip_at cs (length T - 1))]).
    { unfold closing. rewrite HlT. apply Qltb_lt in HltD. now rewrite HltD. }
    unfold post. rewrite Hc, app_comm_cons. apply last_snoc.
Qed.

Lemma C1_witness :
  exists intro rest,
    [mkSegment 0 3 "clips/goon/intro.mp4";
     mkSegment 6 9 "clips/edit/a.mp4";
     mkSegment 9 10 "clips/edit/b.mp4"] = intro :: rest /\
    seg_start intro == 0 /\
    first_beat_at_least 2 [1; 3; 6; 9] (seg_end intro) /\
    Forall (fun seg => seg_start seg <= seg_end seg)
      [mkSegment 0 3 "clips/goon/intro.mp4";
       mkSegment 6 9 "clips/edit/a.mp4";
       mkSegment 9 10 "clips/edit/b.mp4"] /\
    no_overlap [mkSegment 0 3 "clips/goon/intro.mp4";
                mkSegment 6 9 "clips/edit/a.mp4";
                mkSegment 9 10 "clips/edit/b.mp4"] /\
    contiguous rest /\
    (forall bl, last [1; 3; 6; 9] = Some bl -> seg_end intro < bl -> bl < 10 ->
       exists final,
         last [mkSegment 0 3 "clips/goon/intro.mp4";
               mkSegment 6 9 "clips/edit/a.mp4";
               mkSegment 9 10 "clips/edit/b.mp4"] = Some final /\
         seg_end final == 10).
Proof.
  apply (C1_plan_in_order example_env (constant_draws 0)).
  - unfold valid_input. simpl. repeat split; try discriminate.
    repeat constructor.
  - reflexivity.
  - reflexivity.
Defined.

(** ** [detect_beats] *)

Lemma Qle_total : Total Qle.
Proof.
  intros x y. destruct (Qlt_le_dec x y) as [H|H]; [left; now apply Qlt_le_weak | now right].
Qed.

Lemma sorted_Sorted l : Sorted Qle (sorted l).
Proof. exact (@Sorted_merge_sort _ Qle _ Qle_total l). Qed.

Lemma sorted_Permutation l : sorted l ≡ₚ l.
Proof. apply merge_sort_Permutation. Qed.

(** C9: a configuration with the key [beats] and without the key
    [labeled_beats] gives back the list under [beats] as it is stored,
    whatever its order and its values (the list 3, -1, 3 for one), with no
    label; a configuration with the key [labeled_beats] gives back the
    timestamps of all its labels in non-decreasing order, with the labels as
    stored. *)
Theorem C9_config_beats_as_stored (audio : AudioAnalysis) :
  (forall bs, detect_beats (Some (mkConfig None (Some bs))) audio = (bs, [])) /\
  fst (detect_beats (Some (mkConfig None (Some [3; -1; 3]))) audio) = [3; -1; 3] /\
  (forall labeled other,
     let r := detect_beats (Some (mkConfig (Some labeled) other)) audio in
     Sorted Qle (fst r) /\
     fst r ≡ₚ concat (map snd labeled) /\
     snd r = labeled).
Proof.
  split; [reflexivity|]. split; [reflexivity|].
  intros labeled other. simpl. split; [apply sorted_Sorted|].
  split; [apply sorted_Permutation | reflexivity].
Qed.

(** ** More on the planner *)

(** X1: the error of l.295, "Failed to create any valid video segments", is
    never raised: when l.294 is reached, [segments] holds the intro
    segment. *)
Theorem X1_no_segments_error_unreachable (env : Env) (s : RandomState) :
  plan env s <> inl NoSegments.
Proof.
  rewrite plan_eq. unfold plan_of_choices.
  destruct (_ && _); [discriminate|].
  destruct (is_empty (beats env)); [discriminate|].
  destruct (next_beat_after_intro _ _); [|discriminate].
  destruct (negb (loads _ _)); [discriminate|].
  destruct (negb (cuts _ _ _ _)); discriminate.
Qed.

(** X2: a plan is the intro segment followed by the segments of the round
    robin whose cut succeeds.  A cut that raises drops its segment and still
    uses up its turn (l.259 comes before the cut): the segment of the pair
    number [i] is cut from clip [i mod clip_sequence_len] whatever happened
    to the pairs before it. *)
Theorem X2_failed_cut_keeps_its_turn (env : Env) (s : RandomState)
    (segs : list Segment) :
  plan env s = inr segs ->
  exists nb,
    next_beat_after_intro (MIN_INTRO_DURATION env) (beats env) = Some nb /\
    let tail := beats_after nb (beats env) in
    let cs := clip_sequence_of env s in
    segs = mkSegment 0 nb (chosen_intro env s) ::
             List.filter (made (cuts env))
               (round_robin cs 0 tail
                  ++ closing cs (length tail - 1) tail (audio_duration env)) /\
    forall i a b, tail !! i = Some a -> tail !! S i = Some b ->
      exists c, cs !! (i mod length cs)%nat = Some c /\
                round_robin cs 0 tail !! i = Some (mkSegment a b c).
Proof.
  intros H. destruct (plan_success _ _ _ H) as (nb & Hnb & _ & ->).
  exists nb. split; [exact Hnb|]. cbv zeta. split; [reflexivity|].
  intros i a b Ha Hb. exists (clip_at (clip_sequence_of env s) i).
  split; [apply clip_at_lookup, clip_sequence_nonempty|].
  now rewrite (round_robin_lookup _ _ 0 i a b Ha Hb).
Qed.

(** The cut of the first pair, 6 to 9, raises: clip a.mp4 loses its turn and
    the pair 9 to 12 is cut from b.mp4. *)
Lemma X2_witness :
  exists nb,
    next_beat_after_intro (MIN_INTRO_DURATION example_env_failed_cut)
      (beats example_env_failed_cut) = Some nb /\
    let tail := beats_after nb (beats example_env_failed_cut) in
    let cs := clip_sequence_of example_env_failed_cut (constant_draws 0) in
    [mkSegment 0 3 "clips/goon/intro.mp4";
     mkSegment 9 12 "clips/edit/b.mp4";
     mkSegment 12 15 "clips/edit/a.mp4"]
    = mkSegment 0 nb (chosen_intro example_env_failed_cut (constant_draws 0)) ::
        List.filter (made (cuts example_env_failed_cut))
          (round_robin cs 0 tail
             ++ closing cs (length tail - 1) tail
                  (audio_duration example_env_failed_cut)) /\
    forall i a b, tail !! i = Some a -> tail !! S i = Some b ->
      exists c, cs !! (i mod length cs)%nat = Some c /\
                round_robin cs 0 tail !! i = Some (mkSegment a b c).
Proof.
  apply (X2_failed_cut_keeps_its_turn example_env_failed_cut (constant_draws 0)).
  reflexivity.
Defined.

Lemma chosen_intro_in env s :
  goon_clips env <> [] \/ zeta_clips env <> [] ->
  chosen_intro env s ∈ intro_pool (goon_clips env) (zeta_clips env).
Proof.
  intros H. unfold chosen_intro. cbv zeta. apply nth_mod_in.
  unfold intro_pool. destruct (goon_clips env); simpl; [|discriminate].
  destruct H; congruence.
Qed.

Lemma plan_clips_exist env s segs :
  plan env s = inr segs -> goon_clips env <> [] \/ zeta_clips env <> [].
Proof.
  rewrite plan_eq. unfold plan_of_choices.
  destruct (_ && _) eqn:E; [discriminate|]. intros _. now apply clips_exist_iff.
Qed.

Lemma clip_sequence_loaded env s c :
  c ∈ clip_sequence_of env s ->
  (List.filter (loads env) (zeta_clips env) <> [] /\
   c ∈ zeta_clips env /\ loads env c = true) \/
  (List.filter (loads env) (zeta_clips env) = [] /\ c = chosen_intro env s).
Proof.
  unfold clip_sequence_of, order_clips. intros H.
  assert (H' : c ∈ load_clips (loads env) (zeta_clips env) (chosen_intro env s)).
  { destruct (chosen_forward s); [exact H|].
    apply list_elem_of_In, in_rev, list_elem_of_In. exact H. }
  unfold load_clips in H'.
  destruct (List.filter (loads env) (zeta_clips env)) eqn:E.
  - right. split; [reflexivity|]. now apply list_elem_of_singleton in H'.
  - left. split; [discriminate|]. rewrite <- E in H'.
    now apply elem_of_list_filter in H'.
Qed.

(** X3: every segment of a plan is cut from a clip that loaded.  The intro
    is cut from a video of the intro folder (of the content folder when the
    intro folder has none).  When some content clip loads, every other
    segment is cut from a content clip that loads; when no content clip
    loads, every other segment is cut from the intro clip. *)
Theorem X3_segments_use_loaded_folder_clips (env : Env) (s : RandomState)
    (segs : list Segment) :
  plan env s = inr segs ->
  exists intro rest,
    segs = intro :: rest /\
    seg_clip intro ∈ intro_pool (goon_clips env) (zeta_clips env) /\
    loads env (seg_clip intro) = true /\
    ((exists c, c ∈ zeta_clips env /\ loads env c = true) ->
       Forall (fun seg => seg_clip seg ∈ zeta_clips env /\
                          loads env (seg_clip seg) = true) rest) /\
    ((forall c, c ∈ zeta_clips env -> loads env c = false) ->
       Forall (fun seg => seg_clip seg = seg_clip intro) rest).
Proof.
  intros H. pose proof (plan_clips_exist _ _ _ H) as Hex.
  destruct (plan_success _ _ _ H) as (nb & _ & Hload & ->).
  destruct (segments_of_clips env (chosen_intro env s) (clip_sequence_of env s) nb)
    as (rest & -> & Hrest); [apply clip_sequence_nonempty|].
  exists (mkSegment 0 nb (chosen_intro env s)), rest.
  split; [reflexivity|]. split; [now apply chosen_intro_in|].
  split; [exact Hload|]. split.
  - intros (c & Hc & Hl). eapply Forall_impl; [exact Hrest|]. intros seg Hin.
    apply clip_sequence_loaded in Hin as [(_ & Hin)|(Hnone & _)]; [exact Hin|].
    assert (Hf : c ∈ List.filter (loads env) (zeta_clips env))
      by now apply elem_of_list_filter.
    rewrite Hnone in Hf. now apply elem_of_nil in Hf.
  - intros Hnone. eapply Forall_impl; [exact Hrest|]. intros seg Hin.
    apply clip_sequence_loaded in Hin as [(Hsome & _)|(_ & Hin)]; [|exact Hin].
    exfalso. apply Hsome.
    destruct (List.filter (loads env) (zeta_clips env)) as [|c l] eqn:E; [reflexivity|].
    assert (Hc : c ∈ List.filter (loads env) (zeta_clips env))
      by (rewrite E; apply list_elem_of_here).
    apply elem_of_list_filter in Hc as [Hc Hl]. rewrite (Hnone c Hc) in Hl.
    discriminate.
Qed.

(** Clip a.mp4 does not load: both segments after the intro are cut from
    b.mp4. *)
Lemma X3_witness :
  exists intro rest,
    [mkSegment 0 3 "clips/goon/intro.mp4";
     mkSegment 6 9 "clips/edit/b.mp4";
     mkSegment 9 10 "clips/edit/b.mp4"] = intro :: rest /\
    seg_clip intro ∈ intro_pool (goon_clips example_env_unloaded)
                       (zeta_clips example_env_unloaded) /\
    loads example_env_unloaded (seg_clip intro) = true /\
    ((exists c, c ∈ zeta_clips example_env_unloaded /\
                loads example_env_unloaded c = true) ->
       Forall (fun seg => seg_clip seg ∈ zeta_clips example_env_unloaded /\
                          loads example_env_unloaded (seg_clip seg) = true) rest) /\
    ((forall c, c ∈ zeta_clips example_env_unloaded ->
                loads example_env_unloaded c = false) ->
       Forall (fun seg => seg_clip seg = seg_clip intro) rest).
Proof.
  apply (X3_segments_use_loaded_folder_clips example_env_unloaded (constant_draws 0)).
  reflexivity.
Defined.

Lemma list_filter_length_le {A} (f : A -> bool) (l : list A) :
  (length (List.filter f l) <= length l)%nat.
Proof. induction l as [|x l IH]; simpl; [lia|]. destruct (f x); simpl; lia. Qed.

Lemma list_filter_length_lt {A} (f : A -> bool) (l : list A) x :
  x ∈ l -> f x = false -> (length (List.filter f l) < length l)%nat.
Proof.
  induction l as [|y l IH]; intros Hin Hf; [now apply elem_of_nil in Hin|].
  simpl. apply elem_of_cons in Hin as [->|Hin].
  - rewrite Hf. pose proof (list_filter_length_le f l). lia.
  - specialize (IH Hin Hf). destruct (f y); simpl; lia.
Qed.

Lemma next_beat_in m bs nb : next_beat_after_intro m bs = Some nb -> nb ∈ bs.
Proof.
  intros H. destruct (find_split _ _ _ H) as (pre & post & -> & _).
  apply elem_of_app. right. now left.
Qed.

Lemma Qltb_irrefl x : Qltb x x = false.
Proof. apply Qltb_nlt, Qlt_irrefl. Qed.

(** X4: a plan has at least one segment and at most as many segments as
    there are beats. *)
Theorem X4_segment_count_bounds (env : Env) (s : RandomState) (segs : list Segment) :
  plan env s = inr segs ->
  (1 <= length segs <= length (beats env))%nat.
Proof.
  intros H. destruct (plan_success _ _ _ H) as (nb & Hnb & _ & ->).
  unfold segments_of. cbn [length].
  set (T := beats_after nb (beats env)).
  set (post := round_robin _ _ _ ++ closing _ _ _ _).
  pose proof (list_filter_length_le (made (cuts env)) post) as Hf.
  assert (Hpost : (length post <= length T)%nat).
  { unfold post. rewrite length_app, round_robin_length, closing_length.
    destruct T as [|t T']; [simpl; lia|].
    destruct (last (t :: T')); [destruct (Qltb _ _)|]; simpl; lia. }
  assert (HT : (length T < length (beats env))%nat).
  { apply (list_filter_length_lt _ _ nb); [now apply next_beat_in in Hnb|].
    apply Qltb_irrefl. }
  lia.
Qed.

Lemma X4_witness :
  (1 <= length [mkSegment 0 3 "clips/goon/intro.mp4";
                mkSegment 6 9 "clips/edit/a.mp4";
                mkSegment 9 10 "clips/edit/b.mp4"]
   <= length [1; 3; 6; 9])%nat.
Proof.
  apply (X4_segment_count_bounds example_env (constant_draws 0)). reflexivity.
Defined.

Lemma round_robin_boundaries cs T :
  forall k, Forall (fun seg => seg_start seg ∈ T /\ seg_end seg ∈ T) (round_robin cs k T).
Proof.
  induction T as [|a T IH]; intros k; [constructor|].
  destruct T as [|b T]; [constructor|].
  rewrite round_robin_cons. constructor.
  - simpl. split; [now left | right; now left].
  - eapply Forall_impl; [apply IH|]. intros seg [H1 H2]. split; now right.
Qed.

Lemma closing_boundaries cs k T D :
  Forall (fun seg => seg_start seg ∈ T /\ seg_end seg = D) (closing cs k T D).
Proof.
  unfold closing. destruct (last T) as [b|] eqn:E; [|constructor].
  destruct (Qltb b D); [|constructor]. repeat constructor.
  simpl. rewrite last_lookup in E. apply list_elem_of_lookup. eauto.
Qed.

(** X5: the planner invents no timestamp.  The intro segment starts at 0;
    every other segment starts at a beat after the intro boundary; every
    segment ends at a beat or at the end of the audio. *)
Theorem X5_boundaries_are_beats (env : Env) (s : RandomState) (segs : list Segment) :
  plan env s = inr segs ->
  exists intro rest,
    segs = intro :: rest /\
    seg_start intro = 0 /\ seg_end intro ∈ beats env /\
    Forall (fun seg =>
              (seg_start seg ∈ beats env /\ seg_end intro < seg_start seg) /\
              (seg_end seg ∈ beats env \/ seg_end seg = audio_duration env))
      rest.
Proof.
  intros H. destruct (plan_success _ _ _ H) as (nb & Hnb & _ & ->).
  eexists _, _. split; [reflexivity|]. simpl.
  split; [reflexivity|]. split; [now apply next_beat_in in Hnb|].
  apply Forall_list_filter.
  assert (Hin : forall x, x ∈ beats_after nb (beats env) -> x ∈ beats env /\ nb < x).
  { intros x Hx. unfold beats_after in Hx. apply elem_of_list_filter in Hx as [Hx Hlt].
    split; [exact Hx | now apply Qltb_lt]. }
  apply Forall_app. split.
  - eapply Forall_impl; [apply round_robin_boundaries|].
    intros seg [H1 H2]. split; [now apply Hin | left; now apply Hin].
  - eapply Forall_impl; [apply closing_boundaries|].
    intros seg [H1 H2]. split; [now apply Hin | now right].
Qed.

Lemma X5_witness :
  exists intro rest,
    [mkSegment 0 3 "clips/goon/intro.mp4";
     mkSegment 6 9 "clips/edit/a.mp4";
     mkSegment 9 10 "clips/edit/b.mp4"] = intro :: rest /\
    seg_start intro = 0 /\ seg_end intro ∈ [1; 3; 6; 9] /\
    Forall (fun seg =>
              (seg_start seg ∈ [1; 3; 6; 9] /\ seg_end intro < seg_start seg) /\
              (seg_end seg ∈ [1; 3; 6; 9] \/ seg_end seg = 10))
      rest.
Proof.
  apply (X5_boundaries_are_beats example_env (constant_draws 0)). reflexivity.
Defined.

Lemma load_clips_rev loads z intro :
  load_clips loads (rev z) intro = rev (load_clips loads z intro).
Proof.
  unfold load_clips. rewrite List.filter_rev.
  destruct (List.filter loads z) as [|c l] eqn:E; [reflexivity|].
  destruct (rev (c :: l)) eqn:E'; [|reflexivity].
  apply (f_equal (@length _)) in E'. rewrite length_rev in E'. discriminate.
Qed.

Lemma order_clips_rev forward l :
  order_clips forward (rev l) = order_clips (negb forward) l.
Proof. destruct forward; simpl; [reflexivity | apply rev_involutive]. Qed.

(** X6: the two directions mirror each other.  With an intro folder that
    is not empty, a run on the content clips in reverse order that draws one
    direction plans what a run on the content clips in their own order
    plans when it draws the other direction (and the same intro clip). *)
Theorem X6_reversed_pool_mirrors_direction (env : Env) (s1 s2 : RandomState) :
  goon_clips env <> [] ->
  chosen_intro env s1 = chosen_intro env s2 ->
  chosen_forward s1 = negb (chosen_forward s2) ->
  plan (with_zeta (rev (zeta_clips env)) env) s1 = plan env s2.
Proof.
  intros Hg Hi Hf. rewrite !plan_eq.
  assert (Hi' : chosen_intro (with_zeta (rev (zeta_clips env)) env) s1
                = chosen_intro env s1).
  { unfold chosen_intro, with_zeta, intro_pool. simpl.
    destruct (goon_clips env); [congruence|reflexivity]. }
  rewrite Hi', Hi. unfold plan_of_choices, with_zeta. simpl.
  destruct (goon_clips env) as [|g gs]; [congruence|]. simpl.
  destruct (is_empty (beats env)); [reflexivity|].
  destruct (next_beat_after_intro _ _) as [nb|]; [|reflexivity].
  destruct (negb (loads env _)); [reflexivity|].
  destruct (negb (cuts env _ _ _)); [reflexivity|].
  unfold segments_of. simpl.
  now rewrite load_clips_rev, order_clips_rev, Hf, negb_involutive.
Qed.

Lemma X6_witness :
  plan (with_zeta (rev (zeta_clips example_env)) example_env) (constant_draws 1)
  = plan example_env (constant_draws 0).
Proof.
  apply X6_reversed_pool_mirrors_direction; [discriminate|reflexivity|reflexivity].
Defined.

(** X8: beats come from the configuration alone when it has the key
    [labeled_beats].  When every label of it has an empty list (or there is
    no label), [detect_beats] gives no beat, whatever the audio holds and
    whatever stands under the key [beats], and the planner fed with them
    raises "No beats detected or provided". *)
Theorem X8_empty_labels_give_no_beats (env : Env) (s : RandomState)
    (labeled : list (string * list Time)) (other : option (list Time))
    (audio : AudioAnalysis) :
  goon_clips env <> [] \/ zeta_clips env <> [] ->
  Forall (fun entry => snd entry = []) labeled ->
  fst (detect_beats (Some (mkConfig (Some labeled) other)) audio) = [] /\
  plan (with_beats (fst (detect_beats (Some (mkConfig (Some labeled) other)) audio)) env) s
  = inl NoBeats.
Proof.
  intros Hclips Hempty.
  assert (H : fst (detect_beats (Some (mkConfig (Some labeled) other)) audio) = []).
  { simpl. assert (Hc : concat (map snd labeled) = []).
    { induction Hempty as [|[l ts] labeled Hts _ IH]; [reflexivity|].
      simpl in *. now rewrite Hts, IH. }
    now rewrite Hc. }
  split; [exact H|]. rewrite H, plan_eq. unfold plan_of_choices. simpl.
  apply clips_exist_iff in Hclips. now rewrite Hclips.
Qed.

Lemma X8_witness :
  fst (detect_beats (Some (mkConfig (Some [("drop"%string, [])]) (Some [1; 2])))
         (mkAudioAnalysis [1; 2; 3] None)) = [] /\
  plan (with_beats
          (fst (detect_beats (Some (mkConfig (Some [("drop"%string, [])]) (Some [1; 2])))
                  (mkAudioAnalysis [1; 2; 3] None)))
          example_env) (constant_draws 0)
  = inl NoBeats.
Proof.
  apply X8_empty_labels_give_no_beats.
  - left. discriminate.
  - repeat constructor.
Defined.

(** ** The folders *)

Lemma ascii_compare_lt a b :
  Ascii.compare a b = Lt <-> (N_of_ascii a < N_of_ascii b)%N.
Proof. unfold Ascii.compare. apply N.compare_lt_iff. Qed.

Lemma string_compare_cons a s b t :
  String.compare (String a s) (String b t)
  = match Ascii.compare a b with
    | Eq => String.compare s t
    | c => c
    end.
Proof. reflexivity. Qed.

Lemma str_le_trans : Transitive str_le.
Proof.
  unfold str_le, String.leb. intros a.
  induction a as [|x a IH]; intros b c Hab Hbc.
  - destruct c; reflexivity.
  - destruct b as [|y b]; [discriminate|]. destruct c as [|z c]; [discriminate|].
    rewrite string_compare_cons in *.
    destruct (Ascii.compare x y) eqn:Exy; [| |discriminate].
    + apply Ascii.compare_eq_iff in Exy as ->.
      destruct (Ascii.compare y z) eqn:Eyz; [| reflexivity | discriminate].
      exact (IH b c Hab Hbc).
    + destruct (Ascii.compare y z) eqn:Eyz; [| |discriminate].
      * apply Ascii.compare_eq_iff in Eyz as <-. now rewrite Exy.
      * apply ascii_compare_lt in Exy, Eyz.
        assert (Hxz : Ascii.compare x z = Lt).
        { apply ascii_compare_lt. eapply N.lt_trans; eassumption. }
        now rewrite Hxz.
Qed.

Lemma str_le_total : Total str_le.
Proof. intros a b. apply String.leb_total. Qed.

Lemma str_le_antisym : AntiSymm eq str_le.
Proof. intros a b. apply String.leb_antisym. Qed.

Lemma sort_strings_Sorted l : Sorted str_le (sort_strings l).
Proof. exact (@Sorted_merge_sort _ str_le _ str_le_total l). Qed.

Lemma sort_strings_Permutation l : sort_strings l ≡ₚ l.
Proof. apply merge_sort_Permutation. Qed.

Lemma files_with_extension_spec isfile exts folder entries p :
  p ∈ files_with_extension isfile exts folder entries <->
  exists file, file ∈ entries /\ isfile (path_join folder file) = true /\
               has_extension exts file = true /\ p = path_join folder file.
Proof.
  unfold files_with_extension. rewrite list_elem_of_fmap. split.
  - intros (file & -> & Hin). apply elem_of_list_filter in Hin as [Hin Hf].
    apply andb_true_iff in Hf as [H1 H2]. eauto 6.
  - intros (file & Hin & H1 & H2 & ->). exists file. split; [reflexivity|].
    apply elem_of_list_filter. split; [exact Hin|]. now rewrite H1, H2.
Qed.

(** X9: for a folder that is listed, [get_video_files_from_folder] returns,
    in the order of [str] and each as often as the folder lists it, the
    paths of the entries that are files and whose lowered name ends with one
    of the seven video extensions.  For a path where nothing is, it returns
    the empty list once [os.makedirs] has made the folder, and raises when
    [os.makedirs] does; it raises as well when [os.listdir] does. *)
Theorem X9_video_files_filtered_and_sorted (isfile : Path -> bool)
    (folder : Path) (entries : list string) :
  (exists files,
     get_video_files_from_folder isfile folder (Listing entries) = Some files /\
     Sorted str_le files /\
     files ≡ₚ files_with_extension isfile video_extensions folder entries /\
     (forall p, p ∈ files <->
        exists file,
          file ∈ entries /\
          isfile (path_join folder file) = true /\
          existsb (endswith (lower file)) video_extensions = true /\
          p = path_join folder file)) /\
  get_video_files_from_folder isfile folder (NoFolder true) = Some [] /\
  get_video_files_from_folder isfile folder (NoFolder false) = None /\
  get_video_files_from_folder isfile folder NoListing = None.
Proof.
  split; [|repeat split]. eexists. split; [reflexivity|].
  split; [apply sort_strings_Sorted|].
  split; [apply sort_strings_Permutation|].
  intros p. now rewrite (sort_strings_Permutation _), files_with_extension_spec.
Qed.

Lemma list_filter_Permutation {A} (f : A -> bool) (l1 l2 : list A) :
  l1 ≡ₚ l2 -> List.filter f l1 ≡ₚ List.filter f l2.
Proof.
  induction 1 as [|x l1 l2 H IH|x y l|l1 l2 l3 H1 IH1 H2 IH2]; simpl.
  - constructor.
  - destruct (f x); [now constructor | exact IH].
  - destruct (f x), (f y); try reflexivity. constructor.
  - now transitivity (List.filter f l2).
Qed.

(** X10: the clips are listed in the same order whatever the order in which
    the system lists the folder. *)
Theorem X10_listing_order_is_irrelevant (isfile : Path -> bool) (folder : Path)
    (entries1 entries2 : list string) :
  entries1 ≡ₚ entries2 ->
  get_video_files_from_folder isfile folder (Listing entries1)
  = get_video_files_from_folder isfile folder (Listing entries2).
Proof.
  intros H. simpl. f_equal.
  apply (@Sorted_unique _ str_le str_le_trans str_le_antisym);
    try apply sort_strings_Sorted.
  rewrite !sort_strings_Permutation. unfold files_with_extension.
  apply fmap_Permutation. now apply list_filter_Permutation.
Qed.

Lemma X10_witness :
  get_video_files_from_folder (fun _ => true) "clips/edit" (Listing ["b.mp4"; "a.MOV"])
  = get_video_files_from_folder (fun _ => true) "clips/edit" (Listing ["a.MOV"; "b.mp4"]).
Proof. apply X10_listing_order_is_irrelevant. apply Permutation_swap. Defined.

(** X11: [get_random_audio_file] gives [None], and draws nothing, when the
    audio folder does not exist or lists no file with an audio extension;
    otherwise it draws once and gives the path of one of these files. *)
Theorem X11_random_audio_file_is_a_candidate (isfile : Path -> bool)
    (listing : option (list string)) (s : RandomState) :
  let candidates :=
    match listing with
    | Some entries => files_with_extension isfile audio_extensions AUDIO_FOLDER entries
    | None => []
    end in
  (candidates = [] /\ get_random_audio_file isfile listing s = inr (None, s)) \/
  (exists f, f ∈ candidates /\
             get_random_audio_file isfile listing s = inr (Some f, advance s)).
Proof.
  cbv zeta. unfold get_random_audio_file. destruct listing as [entries|]; [|now left].
  destruct (files_with_extension _ _ _ _) as [|c l] eqn:E; [now left|].
  right. unfold bind, random_choice, ret. cbn [is_empty].
  eexists. split; [|reflexivity]. now apply nth_mod_in.
Qed.

End EditorProofs.

(** * Facts about text *)

Lemma append_cons c r s : String c r +:+ s = String c (r +:+ s).
Proof. reflexivity. Qed.

Lemma append_nil_l s : "" +:+ s = s.
Proof. reflexivity. Qed.

Lemma append_nil_r s : s +:+ "" = s.
Proof. induction s as [|c s IH]; [reflexivity|]. now rewrite append_cons, IH. Qed.

Lemma append_assoc a b c : (a +:+ b) +:+ c = a +:+ b +:+ c.
Proof. induction a as [|x a IH]; [reflexivity|]. now rewrite !append_cons, IH. Qed.

Lemma append_inv_head a b c : a +:+ b = a +:+ c -> b = c.
Proof.
  induction a as [|x a IH]; [trivial|]. rewrite !append_cons. intros [= H]. auto.
Qed.

Lemma endswith_append a b : endswith (a +:+ b) b = true.
Proof.
  induction a as [|x a IH].
  - rewrite append_nil_l. destruct b; simpl; [reflexivity|].
    now rewrite Ascii.eqb_refl, String.eqb_refl.
  - rewrite append_cons. simpl. rewrite IH. apply orb_true_r.
Qed.

Lemma endswith_split s suffix :
  endswith s suffix = true -> exists pre, s = pre +:+ suffix.
Proof.
  induction s as [|c s IH]; simpl.
  - rewrite orb_false_r. destruct suffix; [|discriminate]. now exists "".
  - intros H. apply orb_true_iff in H as [H|H].
    + exists "". rewrite append_nil_l.
      change (String.eqb (String c s) suffix = true) in H.
      now apply String.eqb_eq in H.
    + destruct (IH H) as [pre ->]. now exists (String c pre).
Qed.

Lemma path_join_inj dir f1 f2 : path_join dir f1 = path_join dir f2 -> f1 = f2.
Proof.
  unfold path_join. destruct (String.eqb dir "" || endswith dir "/").
  - apply append_inv_head.
  - intros H. apply append_inv_head in H. now apply append_inv_head in H.
Qed.

Lemma rstrip_line s : rstrip (s +:+ newline) = rstrip s.
Proof.
  induction s as [|c s IH]; [reflexivity|].
  rewrite append_cons. simpl. now rewrite IH.
Qed.

Lemma length_rstrip s : (String.length (rstrip s) <= String.length s)%nat.
Proof.
  induction s as [|c s IH]; simpl; [lia|].
  destruct (py_isspace _); simpl; lia.
Qed.

Lemma rstrip_idem s : rstrip (rstrip s) = rstrip s.
Proof.
  induction s as [|c s IH]; [reflexivity|]. simpl.
  destruct (py_isspace (String c (rstrip s))) eqn:E; [reflexivity|].
  simpl. now rewrite IH, E.
Qed.

Lemma rstrip_prefix s : exists tail, s = rstrip s +:+ tail.
Proof.
  induction s as [|c s [tail IH]]; [now exists ""|]. simpl.
  destruct (py_isspace _).
  - now exists (String c s).
  - exists tail. rewrite append_cons. now rewrite <- IH.
Qed.

Lemma startswith_append s tail w : startswith s w = true -> startswith (s +:+ tail) w = true.
Proof.
  revert s. induction w as [|a w IH]; intros s; [reflexivity|].
  destruct s as [|b s]; [discriminate|]. simpl.
  intros H. apply andb_true_iff in H as [-> H]. now apply IH.
Qed.

Lemma startswith_length s w : startswith s w = true -> (String.length w <= String.length s)%nat.
Proof.
  revert s. induction w as [|a w IH]; intros s; simpl; [lia|].
  destruct s as [|b s]; [discriminate|]. simpl.
  intros H. apply andb_true_iff in H as [_ H]. apply IH in H. lia.
Qed.

Lemma length_string_drop n s :
  String.length (string_drop n s) = (String.length s - n)%nat.
Proof.
  revert s. induction n as [|n IH]; intros [|c s]; simpl; try lia. apply IH.
Qed.

Lemma drop_space_None s :
  drop_space s = None <-> Forall (fun w => startswith s w = false) spaces.
Proof.
  unfold drop_space. generalize spaces. intros l.
  induction l as [|w l IH]; simpl.
  - split; [constructor | reflexivity].
  - destruct (startswith s w) eqn:E.
    + split; [discriminate|]. intros H. apply Forall_cons in H as [H _]. congruence.
    + rewrite IH. split; [now constructor | now intros [_ H]%Forall_cons].
Qed.

Lemma drop_space_shorter s r :
  drop_space s = Some r -> (String.length r < String.length s)%nat.
Proof.
  unfold drop_space. destruct (List.find _ _) as [w|] eqn:E; [|discriminate].
  intros [= <-]. apply List.find_some in E as [Hin Hw].
  apply startswith_length in Hw. rewrite length_string_drop.
  assert (Hne : Forall (fun w => (0 < String.length w)%nat) spaces).
  { unfold spaces. repeat constructor. }
  rewrite Forall_forall in Hne. apply list_elem_of_In in Hin.
  apply Hne in Hin. lia.
Qed.

Lemma lstrip_from_fixed n s : drop_space s = None -> lstrip_from n s = s.
Proof. intros H. destruct n; simpl; [reflexivity|]. now rewrite H. Qed.

Lemma length_lstrip_from n s : (String.length (lstrip_from n s) <= String.length s)%nat.
Proof.
  revert s. induction n as [|n IH]; intros s; simpl; [lia|].
  destruct (drop_space s) as [r|] eqn:E; [|lia].
  apply drop_space_shorter in E. specialize (IH r). lia.
Qed.

Lemma length_lstrip s : (String.length (lstrip s) <= String.length s)%nat.
Proof. apply length_lstrip_from. Qed.

(** What [lstrip] leaves does not start with white space. *)
Lemma lstrip_from_done n :
  forall s, (String.length s <= n)%nat -> drop_space (lstrip_from n s) = None.
Proof.
  induction n as [|n IH]; intros s Hlen; simpl.
  - destruct s; [reflexivity | simpl in Hlen; lia].
  - destruct (drop_space s) as [r|] eqn:E; [|exact E].
    apply IH. apply drop_space_shorter in E. lia.
Qed.

Lemma lstrip_done s : drop_space (lstrip s) = None.
Proof. now apply lstrip_from_done. Qed.

Lemma lstrip_fixed s : drop_space s = None -> lstrip s = s.
Proof. apply lstrip_from_fixed. Qed.

Lemma drop_space_rstrip s : drop_space s = None -> drop_space (rstrip s) = None.
Proof.
  rewrite !drop_space_None. intros H.
  destruct (rstrip_prefix s) as [tail Ht].
  eapply Forall_impl; [exact H|]. intros w Hw. simpl in Hw.
  destruct (startswith (rstrip s) w) eqn:E; [|reflexivity].
  apply (startswith_append _ tail) in E. rewrite <- Ht in E. congruence.
Qed.

Lemma strip_idem s : strip (strip s) = strip s.
Proof.
  unfold strip.
  rewrite (lstrip_fixed (rstrip (lstrip s))) by apply drop_space_rstrip, lstrip_done.
  apply rstrip_idem.
Qed.

(** A text that [strip] leaves as it is does not start with white space. *)
Lemma strip_fixed_start p : strip p = p -> p <> "" -> drop_space p = None.
Proof.
  unfold strip, lstrip. intros H Hp.
  destruct p as [|c r]; [congruence|]. cbn [String.length lstrip_from] in H.
  destruct (drop_space (String c r)) as [q|] eqn:E; [|reflexivity].
  apply drop_space_shorter in E. apply (f_equal String.length) in H.
  pose proof (length_rstrip (lstrip_from (String.length r) q)).
  pose proof (length_lstrip_from (String.length r) q). lia.
Qed.

Lemma startswith_before_newline w :
  forall p, no_line_break_text w = true ->
    startswith (p +:+ newline) w = true -> startswith p w = true.
Proof.
  induction w as [|a w IH]; intros p Hw; [reflexivity|].
  simpl in Hw. apply andb_true_iff in Hw as [Ha Hw].
  apply andb_true_iff in Ha as [Ha _]. apply negb_true_iff in Ha.
  destruct p as [|b p]; simpl.
  - rewrite Ha. discriminate.
  - intros H. apply andb_true_iff in H as [-> H]. now apply IH.
Qed.

(** A line feed after a text does not make the text start with white
    space. *)
Lemma drop_space_line p : p <> "" -> drop_space p = None -> drop_space (p +:+ newline) = None.
Proof.
  intros Hp. rewrite !drop_space_None.
  assert (Hsp : Forall (fun w => no_line_break_text (string_drop 1 w) = true) spaces).
  { unfold spaces. repeat constructor. }
  intros H. rewrite Forall_forall in H, Hsp. apply Forall_forall. intros w Hin.
  specialize (H w Hin). specialize (Hsp w Hin). cbv beta in *.
  destruct (startswith (p +:+ newline) w) eqn:E; [|reflexivity].
  destruct p as [|b p]; [congruence|]. destruct w as [|a w]; [discriminate|].
  simpl in *. apply andb_true_iff in E as [Hab E].
  rewrite Hab in H. simpl in H.
  now rewrite (startswith_before_newline w p Hsp E) in H.
Qed.

Lemma strip_line p : strip p = p -> strip (p +:+ newline) = p.
Proof.
  intros H. destruct (decide (p = "")) as [->|Hp]; [reflexivity|].
  pose proof (strip_fixed_start p H Hp) as Hs.
  unfold strip in *.
  rewrite (lstrip_fixed _ (drop_space_line p Hp Hs)), rstrip_line.
  now rewrite (lstrip_fixed _ Hs) in H.
Qed.

Lemma readlines_nonempty s : s <> "" -> readlines s <> [].
Proof.
  destruct s as [|c s]; [congruence|]. intros _. simpl.
  destruct (Ascii.eqb c "010"); [discriminate|].
  destruct (Ascii.eqb c "013").
  - destruct s as [|c' s]; [discriminate|]. destruct (Ascii.eqb c' "010"); discriminate.
  - destruct (readlines s); discriminate.
Qed.

Lemma append_newline_nonempty s : s +:+ newline <> "".
Proof. destruct s; discriminate. Qed.

(** A line feed ends a line whatever follows it. *)
Lemma readlines_append_after_newline n :
  forall t u, (String.length t <= n)%nat ->
    readlines (t +:+ newline +:+ u) = readlines (t +:+ newline) ++ readlines u.
Proof.
  induction n as [|n IH]; intros t u Hlen.
  - destruct t; [reflexivity|simpl in Hlen; lia].
  - destruct t as [|c r]; [reflexivity|]. simpl in Hlen.
    rewrite !append_cons.
    cbn [readlines].
    destruct (Ascii.eqb c "010").
    + rewrite IH by lia. reflexivity.
    + destruct (Ascii.eqb c "013").
      * destruct r as [|c' r'].
        -- reflexivity.
        -- rewrite !append_cons. destruct (Ascii.eqb c' "010").
           ++ simpl in Hlen. rewrite IH by lia. reflexivity.
           ++ simpl in Hlen.
              change (String c' (r' +:+ newline +:+ u))
                with (String c' r' +:+ newline +:+ u).
              change (String c' (r' +:+ newline))
                with (String c' r' +:+ newline).
              rewrite IH by (simpl; lia). reflexivity.
      * rewrite IH by lia.
        destruct (readlines (r +:+ newline)) eqn:E.
        -- now apply readlines_nonempty in E; [|apply append_newline_nonempty].
        -- reflexivity.
Qed.

Lemma readlines_line q :
  no_line_break_text q = true -> readlines (q +:+ newline) = [q +:+ newline].
Proof.
  induction q as [|c r IH]; [reflexivity|].
  simpl. intros H. apply andb_true_iff in H as [H Hr].
  apply andb_true_iff in H as [H1 H2].
  apply negb_true_iff in H1, H2. rewrite append_cons. cbn [readlines].
  rewrite H1, H2, (IH Hr). reflexivity.
Qed.

(** * tiktok_uploader.py: proofs *)

Module UploaderProofs.
Import Uploader.

(** ** The tracking file *)

Lemma terminated_cases t :
  terminated (Some t) = true -> t = "" \/ exists pre, t = pre +:+ newline.
Proof.
  simpl. intros H. apply orb_true_iff in H as [H|H].
  - left. now apply String.eqb_eq.
  - right. now apply endswith_split.
Qed.

Lemma readlines_append_line t q :
  terminated (Some t) = true -> no_line_break_text q = true ->
  readlines (t +:+ q +:+ newline) = readlines t ++ [q +:+ newline].
Proof.
  intros Ht Hq. destruct (terminated_cases t Ht) as [->|[pre ->]].
  - rewrite append_nil_l. now apply readlines_line.
  - rewrite append_assoc.
    rewrite (readlines_append_after_newline (String.length pre)) by lia.
    now rewrite (readlines_line q Hq).
Qed.

Lemma clean_spec q : clean q = true -> strip q = q /\ no_line_break_text q = true.
Proof.
  unfold clean. intros H. apply andb_true_iff in H as [H1 H2].
  split; [now apply String.eqb_eq | exact H2].
Qed.

(** Reading back a tracking file after the line of a clean path is appended
    adds that path to what was read before. *)
Lemma load_uploaded_append text q :
  terminated text = true -> clean q = true ->
  load_uploaded (Some (default "" text +:+ q +:+ newline))
  = {[q]} ∪ load_uploaded text.
Proof.
  intros Ht Hq. destruct (clean_spec q Hq) as [Hs Hn].
  destruct text as [t|]; simpl.
  - rewrite readlines_append_line by assumption.
    rewrite fmap_app, list_to_set_app_L. simpl.
    rewrite (strip_line q Hs), union_empty_r_L. apply union_comm_L.
  - rewrite append_nil_l, readlines_line by assumption. simpl.
    rewrite (strip_line q Hs). reflexivity.
Qed.

Lemma terminated_append text q :
  terminated (Some (default "" text +:+ q +:+ newline)) = true.
Proof.
  simpl. rewrite <- append_assoc, endswith_append. apply orb_true_r.
Qed.

(** ** One call of [_upload_single_video] *)

Lemma subseteq_trans (X Y Z : gset string) : X ⊆ Y -> Y ⊆ Z -> X ⊆ Z.
Proof. intros H1 H2 x Hx. apply H2, H1, Hx. Qed.

(** [st'] differs from [st] by files that were added. *)
Lemma save_file_frame o st :
  tracking (save_file o st) = tracking st /\
  uploaded_videos (save_file o st) = uploaded_videos st /\
  captions_dir (save_file o st) = captions_dir st /\
  driver (save_file o st) = driver st /\
  files st ⊆ files (save_file o st).
Proof.
  destruct o; simpl; repeat split; try reflexivity. apply union_subseteq_r.
Qed.

(** What the [try] block does to the uploader: it returns [True] exactly
    when it has added the path to the set and its line to the tracking
    file. *)
Lemma try_upload_effect b p d h st r st' :
  try_upload b p d h st = (r, st') ->
  captions_dir st' = captions_dir st /\ driver st' = driver st /\
  files st ⊆ files st' /\
  uploaded_videos st ⊆ uploaded_videos st' /\
  ((r = false /\ tracking st' = tracking st) \/
   (r = true /\ tracking st' = Some (tracking_text st +:+ p +:+ newline) /\
    p ∈ uploaded_videos st')).
Proof.
  unfold try_upload.
  pose proof (save_file_frame (b_error_screenshot b) st) as (E1 & E2 & E3 & E4 & E5).
  destruct (driver st) eqn:Hd; cbn [negb];
    [|intros [= <- <-]; repeat split; auto; congruence].
  destruct (b_get b); cbn [negb];
    [|intros [= <- <-]; rewrite E2; repeat split; auto; congruence].
  destruct (select_file b 3 (seq 0 3));
    [ | intros [= <- <-]; repeat split; auto
      | intros [= <- <-]; rewrite E2; repeat split; auto ].
  assert (Hrest :
    match choose_description b d st with
    | Some description =>
        let description := add_hashtags description h in
        let st := save_file (b_set_caption b description) st in
        match click_post b 3 (seq 0 3) with
        | ReturnFalse => (false, st)
        | Throw => (false, save_file (b_error_screenshot b) st)
        | Next =>
            match wait_completion b with
            | Next =>
                let st :=
                  set_uploaded_videos ({[p]} ∪ uploaded_videos st) st in
                if b_track_write b then
                  (true, set_tracking
                           (Some (tracking_text st +:+ p +:+ newline)) st)
                else (false, save_file (b_error_screenshot b) st)
            | _ => (false, save_file (b_error_screenshot b) st)
            end
        end
    | None => (false, save_file (b_error_screenshot b) st)
    end = (r, st') ->
    captions_dir st' = captions_dir st /\ driver st' = driver st /\
    files st ⊆ files st' /\
    uploaded_videos st ⊆ uploaded_videos st' /\
    ((r = false /\ tracking st' = tracking st) \/
     (r = true /\ tracking st' = Some (tracking_text st +:+ p +:+ newline) /\
      p ∈ uploaded_videos st'))).
  { destruct (choose_description b d st) as [description|];
      [|intros [= <- <-]; rewrite E2; repeat split; auto; congruence].
    cbv zeta.
    pose proof (save_file_frame (b_set_caption b (add_hashtags description h)) st)
      as (F1 & F2 & F3 & F4 & F5).
    generalize dependent (save_file (b_set_caption b (add_hashtags description h)) st).
    intros st1 F1 F2 F3 F4 F5.
    pose proof (save_file_frame (b_error_screenshot b) st1) as (G1 & G2 & G3 & G4 & G5).
    assert (Hfail : captions_dir (save_file (b_error_screenshot b) st1) = captions_dir st /\
      driver (save_file (b_error_screenshot b) st1) = driver st /\
      files st ⊆ files (save_file (b_error_screenshot b) st1) /\
      uploaded_videos st ⊆ uploaded_videos (save_file (b_error_screenshot b) st1) /\
      ((false = false /\ tracking (save_file (b_error_screenshot b) st1) = tracking st) \/
       (false = true /\
        tracking (save_file (b_error_screenshot b) st1)
        = Some (tracking_text st +:+ p +:+ newline) /\
        p ∈ uploaded_videos (save_file (b_error_screenshot b) st1)))).
    { rewrite G1, G2, G3, G4, F1, F2, F3, F4.
      split; [congruence|]. split; [congruence|].
      split; [exact (subseteq_trans _ _ _ F5 G5)|].
      split; [reflexivity|]. left. auto. }
    destruct (click_post b 3 (seq 0 3)).
    - destruct (wait_completion b); try (intros [= <- <-]; exact Hfail).
      destruct (b_track_write b).
      + intros [= <- <-]. unfold tracking_text, set_tracking, set_uploaded_videos.
        cbn [tracking uploaded_videos captions_dir driver files].
        rewrite F1, F2, F3, F4.
        split; [congruence|]. split; [congruence|]. split; [exact F5|].
        split; [apply union_subseteq_r|]. right. split; [reflexivity|].
        split; [reflexivity|]. apply elem_of_union_l, elem_of_singleton. reflexivity.
      + intros [= <- <-].
        pose proof (save_file_frame (b_error_screenshot b)
          (set_uploaded_videos ({[p]} ∪ uploaded_videos st1) st1))
          as (K1 & K2 & K3 & K4 & K5).
        unfold set_uploaded_videos in *.
        cbn [tracking uploaded_videos captions_dir driver files] in *.
        split; [congruence|]. split; [congruence|].
        split; [exact (subseteq_trans _ _ _ F5 K5)|].
        split; [rewrite K2, F2; apply union_subseteq_r|].
        left. split; [reflexivity|congruence].
    - intros [= <- <-]. rewrite F1, F2, F3, F4.
      split; [congruence|]. split; [congruence|]. split; [exact F5|].
      split; [reflexivity|]. left. auto.
    - intros [= <- <-]. exact Hfail. }
  destruct (b_processing b);
    try (intros H; specialize (Hrest H); rewrite Hd in Hrest; exact Hrest).
  intros [= <- <-]; rewrite E2; repeat split; auto; congruence.
Qed.

Lemma not_elem_of_remove (X : gset string) p : p ∉ X ∖ {[p]}.
Proof.
  intros H. apply elem_of_difference in H as [_ H]. apply H.
  now apply elem_of_singleton.
Qed.

(** What one call does to the uploader. *)
Lemma single_effect b p d h st r st' :
  _upload_single_video b p d h st = (r, st') ->
  captions_dir st' = captions_dir st /\ driver st' = driver st /\
  uploaded_videos st ⊆ uploaded_videos st' /\
  (tracking st' = tracking st \/
   (tracking st' = Some (tracking_text st +:+ p +:+ newline) /\
    p ∈ uploaded_videos st')) /\
  (returned_true r = true ->
     tracking st' = Some (tracking_text st +:+ p +:+ newline) /\
     p ∈ uploaded_videos st') /\
  (forall x, r = Return x -> p ∉ files st').
Proof.
  unfold _upload_single_video.
  destruct (bool_decide (p ∈ files st)) eqn:Hin.
  - destruct (try_upload b p d h st) as [r1 st1] eqn:Htry.
    destruct (try_upload_effect _ _ _ _ _ _ _ Htry) as (H1 & H2 & H3 & H4 & H5).
    unfold os_remove.
    destruct (bool_decide (p ∈ files st1) && b_remove b).
    + intros [= <- <-]. unfold set_files.
      cbn [tracking uploaded_videos captions_dir driver files].
      split; [exact H1|]. split; [exact H2|]. split; [exact H4|].
      split; [destruct H5 as [[_ H5]|(_ & H5 & H6)]; auto|].
      split.
      * simpl. intros Hr. destruct r1; [|discriminate].
        destruct H5 as [[H5 _]|(_ & H5 & H6)]; [discriminate|auto].
      * intros x _. apply not_elem_of_remove.
    + intros [= <- <-].
      split; [exact H1|]. split; [exact H2|]. split; [exact H4|].
      split; [destruct H5 as [[_ H5]|(_ & H5 & H6)]; auto|].
      split; [discriminate|discriminate].
  - intros [= <- <-]. apply bool_decide_eq_false in Hin.
    repeat split; auto; try discriminate.
Qed.

(** ** [upload_video] *)

Lemma upload_video_not_ready s b p d h st :
  ready s = false -> p ∈ files st ->
  fst (upload_video s b p d h st) = false /\
  p ∈ files (snd (upload_video s b p d h st)).
Proof.
  unfold ready, upload_video, _setup_driver, login. intros Hr Hin.
  destruct (s_chrome s); [|split; [reflexivity|exact Hin]].
  destruct (s_script s); [|split; [reflexivity|exact Hin]].
  cbn [andb negb] in *. rewrite Hr. cbn [negb fst snd _cleanup].
  split; [reflexivity|]. simpl. now apply elem_of_union_r.
Qed.

(** C8, against the claim: when Chrome does not start, [upload_video]
    returns [False] and the video is still there. *)
Lemma C8_counterexample :
  fst (upload_video example_session_down example_browser "output/video.mp4"
         None None example_state) = false /\
  "output/video.mp4"
    ∈ files (snd (upload_video example_session_down example_browser
                    "output/video.mp4" None None example_state)).
Proof.
  assert (Hin : "output/video.mp4" ∈ files example_state).
  { unfold example_state. cbn [files]. now apply elem_of_singleton. }
  exact (upload_video_not_ready example_session_down example_browser
           "output/video.mp4" None None example_state eq_refl Hin).
Qed.

(** C8, amended: whenever a call of [_upload_single_video] returns, no file
    is left at [video_path].  [upload_video] leaves no file there when the
    driver is set up, the account is logged in and [os.remove] does not
    raise; when the driver cannot be set up or the login fails, it returns
    [False] and a file at [video_path] stays where it is. *)
Theorem C8_video_removed_when_call_returns (b : Browser) (p : Path)
    (d : option string) (h : option (list string)) (st : State) :
  (forall r st', _upload_single_video b p d h st = (Return r, st') -> p ∉ files st') /\
  (forall s, ready s = true -> b_remove b = true ->
     p ∉ files (snd (upload_video s b p d h st))) /\
  (forall s, ready s = false -> p ∈ files st ->
     fst (upload_video s b p d h st) = false /\
     p ∈ files (snd (upload_video s b p d h st))).
Proof.
  split; [|split].
  - intros r st' H. destruct (single_effect _ _ _ _ _ _ _ H) as (_ & _ & _ & _ & _ & Hf).
    now apply (Hf r).
  - intros s Hr Hrm. unfold ready in Hr.
    apply andb_true_iff in Hr as [Hr Hl]. apply andb_true_iff in Hr as [Hc Hs].
    unfold upload_video, _setup_driver, login. rewrite Hc, Hs, Hl.
    cbn [negb].
    destruct (_upload_single_video b p d h _) as [r st1] eqn:Hu.
    destruct r as [r|].
    + destruct (single_effect _ _ _ _ _ _ _ Hu) as (_ & _ & _ & _ & _ & Hf).
      exact (Hf r eq_refl).
    + exfalso. revert Hu. unfold _upload_single_video.
      destruct (bool_decide _) eqn:Hin; [|discriminate].
      destruct (try_upload _ _ _ _ _) as [r1 st2] eqn:Htry.
      destruct (try_upload_effect _ _ _ _ _ _ _ Htry) as (_ & _ & H3 & _).
      unfold os_remove. rewrite Hrm.
      apply bool_decide_eq_true in Hin. apply H3 in Hin.
      rewrite (bool_decide_eq_true_2 _ Hin). discriminate.
  - intros s. apply upload_video_not_ready.
Qed.

Lemma C8_witness :
  "output/video.mp4"
    ∉ files (snd (upload_video example_session example_browser
                    "output/video.mp4" None None example_state)).
Proof.
  apply (C8_video_removed_when_call_returns example_browser "output/video.mp4"
           None None example_state); reflexivity.
Defined.

(** ** The loop of [upload_multiple_videos] *)

Lemma returned_true_Return x : returned_true (Return x) = x.
Proof. now destruct x. Qed.

Lemma upload_loop_calls c n :
  forall vf i cnt st tr res st' tr',
    upload_loop c n i vf cnt st tr = (res, st', tr') ->
    exists done, tr' = tr ++ done /\ attempts done `prefix_of` vf /\
                 calls (hashtags c) st done st'.
Proof.
  induction vf as [|video rest IH]; intros i cnt st tr res st' tr'.
  - intros [= <- <- <-]. exists []. rewrite app_nil_r.
    split; [reflexivity|]. split; [apply prefix_nil | constructor].
  - cbn [upload_loop].
    destruct (limit_reached (max_uploads c) cnt).
    { intros [= <- <- <-]. exists []. rewrite app_nil_r.
      split; [reflexivity|]. split; [apply prefix_nil | constructor]. }
    destruct (_upload_single_video (browsers c i) video None (hashtags c) st)
      as [r st1] eqn:Hu.
    assert (Hone : exists done, tr ++ [(video, returned_true r)] = tr ++ done /\
                     attempts done `prefix_of` (video :: rest) /\
                     calls (hashtags c) st done st1).
    { exists [(video, returned_true r)]. split; [reflexivity|]. split.
      - exists rest. reflexivity.
      - econstructor; [exact Hu | constructor]. }
    assert (Hmore : forall cnt' res st' tr',
      upload_loop c n (S i) rest cnt' st1 (tr ++ [(video, returned_true r)])
      = (res, st', tr') ->
      exists done, tr' = tr ++ done /\ attempts done `prefix_of` (video :: rest) /\
                   calls (hashtags c) st done st').
    { intros cnt' res0 st0 tr0 Hl.
      destruct (IH _ _ _ _ _ _ _ Hl) as (done & -> & Hp & Hc).
      exists ((video, returned_true r) :: done). rewrite <- app_assoc.
      split; [reflexivity|]. split.
      - simpl. now apply prefix_cons.
      - econstructor; eassumption. }
    destruct r as [success|].
    + rewrite <- (returned_true_Return success).
      rewrite (returned_true_Return success) at 1.
      destruct success.
      * destruct ((i <? n - 1)%nat && negb (limit_reached (max_uploads c) (S cnt))).
        -- destruct (randint (min_delay c) (max_delay c) (delays c i)) as [delay|].
           ++ destruct (delay <? 0)%Z.
              ** intros [= <- <- <-]. exact Hone.
              ** apply Hmore.
           ++ intros [= <- <- <-]. exact Hone.
        -- apply Hmore.
      * apply Hmore.
    + intros [= <- <- <-]. exact Hone.
Qed.

(** ** A sequence of calls *)

Lemma text_grows_refl t : text_grows t t.
Proof. now left. Qed.

Lemma text_grows_trans t1 t2 t3 :
  text_grows t1 t2 -> text_grows t2 t3 -> text_grows t1 t3.
Proof.
  intros [->|[s1 ->]] [->|[s2 ->]]; try (now left); try (right; eauto; fail).
  right. exists (s1 +:+ s2). simpl. now rewrite append_assoc.
Qed.

Lemma has_line_grows t t' p : has_line t p -> text_grows t t' -> has_line t' p.
Proof.
  intros (pre & post & ->) [->|[suffix ->]]; [now exists pre, post|].
  exists pre, (post +:+ suffix). simpl. now rewrite !append_assoc.
Qed.

Lemma single_grows b p d h st r st' :
  _upload_single_video b p d h st = (r, st') -> text_grows (tracking st) (tracking st').
Proof.
  intros H. destruct (single_effect _ _ _ _ _ _ _ H) as (_ & _ & _ & [Ht|[Ht _]] & _).
  - now left.
  - right. now exists (p +:+ newline).
Qed.

Lemma calls_grow h st tr st' :
  calls h st tr st' ->
  uploaded_videos st ⊆ uploaded_videos st' /\
  text_grows (tracking st) (tracking st').
Proof.
  induction 1 as [st|st b p r st1 tr st2 Hu Hc [IH1 IH2]].
  - split; [reflexivity | apply text_grows_refl].
  - destruct (single_effect _ _ _ _ _ _ _ Hu) as (_ & _ & Hs & _).
    split.
    + exact (subseteq_trans _ _ _ Hs IH1).
    + eapply text_grows_trans; [eapply single_grows; exact Hu | exact IH2].
Qed.

Lemma successes_cons p r tr :
  successes ((p, r) :: tr) = if r then p :: successes tr else successes tr.
Proof. unfold successes. simpl. now destruct r. Qed.

(** Every call that returned [True] has left its path in the set and its
    line in the tracking file. *)
Lemma calls_successes h st tr st' :
  calls h st tr st' ->
  Forall (fun p => p ∈ uploaded_videos st' /\ has_line (tracking st') p) (successes tr).
Proof.
  induction 1 as [st|st b p r st1 tr st2 Hu Hc IH]; [constructor|].
  rewrite successes_cons.
  destruct (returned_true r) eqn:Hr; [|exact IH].
  constructor; [|exact IH].
  destruct (single_effect _ _ _ _ _ _ _ Hu) as (_ & _ & _ & _ & Hs & _).
  destruct (Hs Hr) as [Ht Hin].
  destruct (calls_grow _ _ _ _ Hc) as [Hsub Hg].
  split; [now apply Hsub|].
  apply (has_line_grows (tracking st1)); [|exact Hg].
  exists (tracking_text st), "". now rewrite append_nil_r.
Qed.

(** With clean paths, a tracking file that ends with a line feed keeps
    doing so, and reading it back gives what it gave before and the paths
    of the calls that returned [True]. *)
Lemma calls_tracking h st tr st' :
  calls h st tr st' ->
  Forall (fun p => clean p = true) (attempts tr) ->
  terminated (tracking st) = true ->
  terminated (tracking st') = true /\
  load_uploaded (tracking st) ⊆ load_uploaded (tracking st') /\
  Forall (fun p => p ∈ load_uploaded (tracking st')) (successes tr).
Proof.
  induction 1 as [st|st b p r st1 tr st2 Hu Hc IH]; intros Hclean Hterm.
  - split; [exact Hterm|]. split; [reflexivity|constructor].
  - simpl in Hclean. inversion Hclean as [|? ? Hp Hrest]; subst.
    destruct (single_effect _ _ _ _ _ _ _ Hu) as (_ & _ & _ & Ht & Hs & _).
    assert (H1 : terminated (tracking st1) = true /\
                 load_uploaded (tracking st) ⊆ load_uploaded (tracking st1) /\
                 (returned_true r = true -> p ∈ load_uploaded (tracking st1))).
    { destruct Ht as [Ht|[Ht _]].
      - rewrite Ht. split; [exact Hterm|]. split; [reflexivity|].
        intros Hr. destruct (Hs Hr) as [Ht' _]. rewrite Ht' in Ht.
        rewrite <- Ht. unfold tracking_text.
        rewrite (load_uploaded_append _ _ Hterm Hp).
        now apply elem_of_union_l, elem_of_singleton.
      - rewrite Ht. unfold tracking_text. split; [apply terminated_append|].
        rewrite (load_uploaded_append _ _ Hterm Hp).
        split; [apply union_subseteq_r|].
        intros _. now apply elem_of_union_l, elem_of_singleton. }
    destruct H1 as (Hterm1 & Hsub1 & Hin1).
    destruct (IH Hrest Hterm1) as (Hterm2 & Hsub2 & Hall).
    split; [exact Hterm2|]. split; [exact (subseteq_trans _ _ _ Hsub1 Hsub2)|].
    rewrite successes_cons. destruct (returned_true r); [|exact Hall].
    constructor; [|exact Hall]. apply Hsub2. now apply Hin1.
Qed.

(** ** [upload_multiple_videos] *)

(** The videos the method may try. *)
Lemma new_videos_not_uploaded videos_dir entries uploaded :
  Forall (fun p => p ∉ uploaded) (new_videos videos_dir entries uploaded).
Proof.
  unfold new_videos. induction (path_join videos_dir <$> _) as [|x l IH];
    simpl; [constructor|].
  destruct (bool_decide (x ∉ uploaded)) eqn:E; [|exact IH].
  constructor; [now apply bool_decide_eq_true in E | exact IH].
Qed.

Lemma NoDup_list_filter {A} (f : A -> bool) (l : list A) :
  NoDup l -> NoDup (List.filter f l).
Proof.
  induction 1 as [|x l Hx Hl IH]; simpl; [constructor|].
  destruct (f x); [|exact IH]. constructor; [|exact IH].
  intros Hin. apply Hx. apply list_elem_of_In in Hin.
  apply List.filter_In in Hin as [Hin _]. now apply list_elem_of_In.
Qed.

Lemma new_videos_NoDup videos_dir entries uploaded :
  NoDup entries -> NoDup (new_videos videos_dir entries uploaded).
Proof.
  intros H. unfold new_videos. apply NoDup_list_filter.
  apply NoDup_fmap_2; [|now apply NoDup_list_filter].
  intros f1 f2. apply path_join_inj.
Qed.

Lemma new_videos_from videos_dir entries uploaded p :
  p ∈ new_videos videos_dir entries uploaded ->
  exists file, file ∈ entries /\ has_extension upload_extensions file = true /\
               p = path_join videos_dir file.
Proof.
  unfold new_videos. intros H. apply list_elem_of_In, List.filter_In in H as [H _].
  apply list_elem_of_In, list_elem_of_fmap in H as (file & -> & H).
  apply list_elem_of_In, List.filter_In in H as [H1 H2].
  exists file. split; [now apply list_elem_of_In|]. auto.
Qed.

(** The videos that [upload_multiple_videos] may try on [entries]. *)
Lemma upload_multiple_videos_calls s c videos_dir entries st :
  let r := upload_multiple_videos s c videos_dir entries st in
  exists st1 st2,
    tracking st1 = tracking st /\ uploaded_videos st1 = uploaded_videos st /\
    calls (hashtags c) st1 (snd r) st2 /\
    tracking (snd (fst r)) = tracking st2 /\
    uploaded_videos (snd (fst r)) = uploaded_videos st2 /\
    attempts (snd r) `prefix_of`
      match entries with
      | Some entries => new_videos videos_dir entries (uploaded_videos st)
      | None => []
      end /\
    files st ⊆ files st1 /\ files (snd (fst r)) = files st2.
Proof.
  cbv zeta. unfold upload_multiple_videos.
  assert (Hnone : forall (n : nat) (st0 : State) (l : list string),
    tracking st0 = tracking st -> uploaded_videos st0 = uploaded_videos st ->
    files st ⊆ files st0 ->
    exists st1 st2,
      tracking st1 = tracking st /\ uploaded_videos st1 = uploaded_videos st /\
      calls (hashtags c) st1 (snd (n, st0, @nil (string * bool))) st2 /\
      tracking (snd (fst (n, st0, @nil (string * bool)))) = tracking st2 /\
      uploaded_videos (snd (fst (n, st0, @nil (string * bool)))) = uploaded_videos st2 /\
      attempts (snd (n, st0, @nil (string * bool))) `prefix_of` l /\
      files st ⊆ files st1 /\
      files (snd (fst (n, st0, @nil (string * bool)))) = files st2).
  { intros n st0 l H1 H2 H3. exists st0, st0. simpl.
    repeat split; auto; [constructor | apply prefix_nil]. }
  destruct entries as [entries|]; [|now apply Hnone].
  destruct (is_empty _); [now apply Hnone|].
  unfold _setup_driver, login.
  destruct (s_chrome s); [|now apply Hnone].
  destruct (s_script s); [|now apply Hnone].
  cbn [negb].
  destruct (negb (s_cookies s && s_cookie_login s || s_manual_login s));
    [apply Hnone; try reflexivity; apply union_subseteq_r|].
  destruct (upload_loop _ _ _ _ _ _ _) as [[res st2] tr] eqn:Hl.
  destruct (upload_loop_calls _ _ _ _ _ _ _ _ _ _ Hl) as (done & Hd & Hp & Hc).
  simpl in Hd. subst tr.
  destruct res; cbn [fst snd _cleanup set_driver tracking uploaded_videos files];
    (eexists; exists st2;
     split; [|split; [|split; [exact Hc|]]]; [reflexivity|reflexivity|];
     split; [reflexivity|]; split; [reflexivity|]; split; [exact Hp|];
     split; [apply union_subseteq_r | reflexivity]).
Qed.

(** ** Runs that share the tracking file *)

Lemma run_invocation_eq inv text :
  run_invocation inv text
  = (tracking (snd (fst (upload_multiple_videos (inv_session inv) (inv_batch inv)
                           (inv_videos_dir inv) (inv_entries inv)
                           (__init__ (inv_captions_dir inv) (inv_files inv) text)))),
     snd (upload_multiple_videos (inv_session inv) (inv_batch inv)
            (inv_videos_dir inv) (inv_entries inv)
            (__init__ (inv_captions_dir inv) (inv_files inv) text))).
Proof.
  unfold run_invocation. now destruct (upload_multiple_videos _ _ _ _ _) as [[n st] tr].
Qed.

Lemma Forall_prefix {A} (P : A -> Prop) (l1 l2 : list A) :
  l1 `prefix_of` l2 -> Forall P l2 -> Forall P l1.
Proof. intros [k ->] H. now apply Forall_app in H as [H _]. Qed.

Lemma NoDup_prefix {A} (l1 l2 : list A) : l1 `prefix_of` l2 -> NoDup l2 -> NoDup l1.
Proof. intros [k ->] H. now apply NoDup_app in H as [H _]. Qed.

Lemma run_invocation_spec inv text :
  let r := run_invocation inv text in
  Forall (fun p => p ∉ load_uploaded text) (attempts (snd r)) /\
  (distinct_entries inv -> NoDup (attempts (snd r))) /\
  (clean_run inv -> terminated text = true ->
     terminated (fst r) = true /\
     load_uploaded text ⊆ load_uploaded (fst r) /\
     Forall (fun p => p ∈ load_uploaded (fst r)) (successes (snd r))).
Proof.
  cbv zeta. rewrite run_invocation_eq. cbn [fst snd].
  pose proof (upload_multiple_videos_calls (inv_session inv) (inv_batch inv)
    (inv_videos_dir inv) (inv_entries inv)
    (__init__ (inv_captions_dir inv) (inv_files inv) text)) as H.
  cbv zeta in H. destruct H as (st1 & st2 & Ht1 & Hu1 & Hc & Ht2 & Hu2 & Hp & Hf1 & Hf2).
  cbn [__init__ tracking uploaded_videos] in Ht1, Hu1, Hp.
  split; [|split].
  - eapply Forall_prefix; [exact Hp|].
    destruct (inv_entries inv); [apply new_videos_not_uploaded | constructor].
  - intros Hd. eapply NoDup_prefix; [exact Hp|].
    destruct (inv_entries inv) as [entries|] eqn:E; [|constructor].
    apply new_videos_NoDup. now apply Hd.
  - intros Hclean Hterm. rewrite Ht2.
    destruct (calls_tracking _ _ _ _ Hc) as (G1 & G2 & G3).
    + eapply Forall_prefix; [exact Hp|].
      destruct (inv_entries inv) as [entries|] eqn:E; [|constructor].
      apply Forall_forall. intros p Hin.
      apply new_videos_from in Hin as (file & Hf & He & ->).
      now apply (Hclean entries).
    + now rewrite Ht1.
    + rewrite Ht1 in G2. auto.
Qed.

Lemma lookup_success tr i p : tr !! i = Some (p, true) -> p ∈ successes tr.
Proof.
  revert i. induction tr as [|[q r] tr IH]; intros i H; [discriminate|].
  rewrite successes_cons. destruct i as [|i].
  - injection H as -> ->. now left.
  - specialize (IH i H). destruct r; [now right | exact IH].
Qed.

Lemma success_lookup tr p : p ∈ successes tr -> exists i, tr !! i = Some (p, true).
Proof.
  induction tr as [|[q r] tr IH]; intros H; [now apply elem_of_nil in H|].
  rewrite successes_cons in H. destruct r.
  - apply elem_of_cons in H as [->|H]; [now exists 0%nat|].
    destruct (IH H) as [i Hi]. now exists (S i).
  - destruct (IH H) as [i Hi]. now exists (S i).
Qed.

Lemma lookup_attempt (tr : Trace) i p r : tr !! i = Some (p, r) -> attempts tr !! i = Some p.
Proof.
  intros H. unfold attempts. rewrite list_lookup_fmap.
  unfold Trace in *. now rewrite H.
Qed.

Lemma never_again_app tr1 tr2 :
  never_again tr2 -> NoDup (attempts tr1) ->
  (forall p, p ∈ successes tr1 -> p ∉ attempts tr2) ->
  never_again (tr1 ++ tr2).
Proof.
  intros H2 Hnd Hcross i j p r Hij Hi Hj.
  apply lookup_app_Some in Hi as [Hi|[Hil Hi]];
    apply lookup_app_Some in Hj as [Hj|[Hjl Hj]].
  - apply lookup_attempt in Hi, Hj.
    pose proof (NoDup_lookup _ _ _ _ Hnd Hi Hj). lia.
  - apply (Hcross p); [now apply lookup_success in Hi|].
    apply lookup_attempt in Hj. apply list_elem_of_lookup. eauto.
  - apply lookup_lt_Some in Hj. lia.
  - apply (H2 (i - length tr1)%nat (j - length tr1)%nat p r); [lia | assumption..].
Qed.

Lemma never_again_NoDup tr : never_again tr -> NoDup (successes tr).
Proof.
  induction tr as [|[q r] tr IH]; intros H; [constructor|].
  assert (Htail : never_again tr).
  { intros i j p r' Hij Hi Hj. apply (H (S i) (S j) p r'); [lia | assumption..]. }
  rewrite successes_cons. destruct r; [|now apply IH].
  constructor; [|now apply IH].
  intros Hin. apply success_lookup in Hin as [j Hj].
  apply (H 0%nat (S j) q true); [lia | reflexivity | exact Hj].
Qed.

Lemma run_invocations_cons inv rest text :
  run_invocations (inv :: rest) text
  = (fst (run_invocations rest (fst (run_invocation inv text))),
     snd (run_invocation inv text)
     ++ snd (run_invocations rest (fst (run_invocation inv text)))).
Proof.
  cbn [run_invocations]. destruct (run_invocation inv text) as [t tr].
  cbn [fst snd]. now destruct (run_invocations rest t).
Qed.

Lemma run_invocations_spec invs :
  forall text, terminated text = true ->
    Forall clean_run invs -> Forall distinct_entries invs ->
    never_again (snd (run_invocations invs text)) /\
    Forall (fun p => p ∉ load_uploaded text) (attempts (snd (run_invocations invs text))).
Proof.
  induction invs as [|inv rest IH]; intros text Hterm Hclean Hdist.
  - split; [|constructor]. intros i j p r _ Hi. destruct i; discriminate.
  - inversion Hclean as [|? ? Hc Hcs]; inversion Hdist as [|? ? Hd Hds]; subst.
    rewrite run_invocations_cons. cbn [snd].
    pose proof (run_invocation_spec inv text) as H. cbv zeta in H.
    destruct H as (Hnot & Hnd & Hafter).
    destruct (Hafter Hc Hterm) as (Hterm1 & Hsub & Hsucc).
    destruct (IH _ Hterm1 Hcs Hds) as (Hna & Hnot2).
    split.
    + apply never_again_app; [exact Hna | now apply Hnd |].
      intros p Hp Hin. rewrite Forall_forall in Hsucc, Hnot2.
      exact (Hnot2 p Hin (Hsucc p Hp)).
    + unfold attempts. rewrite fmap_app. apply Forall_app. split; [exact Hnot|].
      eapply Forall_impl; [exact Hnot2|]. intros p Hp Hin. apply Hp. now apply Hsub.
Qed.

(** C10: a video is uploaded twice.  The directory name starts with a
    space.  The first run uploads the video and writes its path to the
    tracking file; the second run reads the line back without the space
    ([line.strip()], l.69), does not find the path in its set (l.650), and
    uploads the video again. *)
Theorem C10_path_with_leading_space_is_uploaded_twice :
  snd (run_invocations [example_invocation " videos"; example_invocation " videos"]
         None)
  = [(" videos/a.mp4", true); (" videos/a.mp4", true)] /\
  load_uploaded
    (fst (run_invocations [example_invocation " videos"; example_invocation " videos"]
            None))
  = {["videos/a.mp4"]}.
Proof. split; vm_compute; reflexivity. Qed.

(** X25: [upload_multiple_videos] tries no path that is in
    [uploaded_videos] when it is called, and every path whose upload
    returned [True] is in the set and has its line in the tracking file when
    the method returns.  Across runs that share the tracking file, no path is
    tried again after its upload returned [True], and so none is uploaded
    twice, provided that the tracking file the first run finds is absent,
    empty or ends with a line feed, that no directory lists a name twice, and
    that every video path is clean: it has no line break in it, and no white
    space at its start or end. *)
Theorem X25_clean_paths_are_not_uploaded_twice :
  (forall s c videos_dir entries st,
     let r := upload_multiple_videos s c videos_dir entries st in
     Forall (fun p => p ∉ uploaded_videos st) (attempts (snd r)) /\
     Forall (fun p => p ∈ uploaded_videos (snd (fst r)) /\
                      has_line (tracking (snd (fst r))) p)
       (successes (snd r))) /\
  (forall invs text,
     terminated text = true ->
     Forall clean_run invs -> Forall distinct_entries invs ->
     never_again (snd (run_invocations invs text)) /\
     NoDup (successes (snd (run_invocations invs text)))).
Proof.
  split.
  - intros s c videos_dir entries st. cbv zeta.
    pose proof (upload_multiple_videos_calls s c videos_dir entries st) as H.
    cbv zeta in H. destruct H as (st1 & st2 & Ht1 & Hu1 & Hc & Ht2 & Hu2 & Hp & Hf1 & Hf2).
    split.
    + eapply Forall_prefix; [exact Hp|].
      destruct entries; [apply new_videos_not_uploaded | constructor].
    + rewrite Ht2, Hu2. exact (calls_successes _ _ _ _ Hc).
  - intros invs text Hterm Hclean Hdist.
    destruct (run_invocations_spec invs text Hterm Hclean Hdist) as [Hna _].
    split; [exact Hna | now apply never_again_NoDup].
Qed.

Lemma example_invocation_clean : clean_run (example_invocation "videos").
Proof.
  intros entries file [= <-] Hin _.
  apply list_elem_of_singleton in Hin as ->. reflexivity.
Qed.

Lemma example_invocation_distinct : distinct_entries (example_invocation "videos").
Proof.
  intros entries [= <-]. constructor; [apply not_elem_of_nil | constructor].
Qed.

Lemma X25_witness :
  never_again
    (snd (run_invocations [example_invocation "videos"; example_invocation "videos"]
            None)) /\
  NoDup
    (successes
       (snd (run_invocations [example_invocation "videos"; example_invocation "videos"]
               None))).
Proof.
  apply (proj2 X25_clean_paths_are_not_uploaded_twice).
  - reflexivity.
  - repeat constructor; apply example_invocation_clean.
  - repeat constructor; apply example_invocation_distinct.
Defined.

(** ** More on one upload *)

Lemma upload_video_grows s b p d h st :
  uploaded_videos st ⊆ uploaded_videos (snd (upload_video s b p d h st)) /\
  text_grows (tracking st) (tracking (snd (upload_video s b p d h st))).
Proof.
  unfold upload_video, _setup_driver, login.
  destruct (s_chrome s); [|split; [reflexivity | apply text_grows_refl]].
  destruct (s_script s); [|split; [reflexivity | apply text_grows_refl]].
  cbn [negb].
  destruct (negb _); [split; [reflexivity | apply text_grows_refl]|].
  destruct (_upload_single_video _ _ _ _ _) as [r st1] eqn:Hu.
  destruct (single_effect _ _ _ _ _ _ _ Hu) as (_ & _ & Hs & _).
  pose proof (single_grows _ _ _ _ _ _ _ Hu) as Hg.
  destruct r; (split; [exact Hs | exact Hg]).
Qed.

(** X12: the record of uploads is append-only.  Neither [upload_video] nor
    [upload_multiple_videos] takes a path out of [uploaded_videos], and the
    tracking file they leave is the one they found or that one with text
    appended. *)
Theorem X12_upload_record_is_append_only :
  (forall s b p d h st,
     uploaded_videos st ⊆ uploaded_videos (snd (upload_video s b p d h st)) /\
     text_grows (tracking st) (tracking (snd (upload_video s b p d h st)))) /\
  (forall s c videos_dir entries st,
     let st' := snd (fst (upload_multiple_videos s c videos_dir entries st)) in
     uploaded_videos st ⊆ uploaded_videos st' /\
     text_grows (tracking st) (tracking st')).
Proof.
  split; [apply upload_video_grows|].
  intros s c videos_dir entries st. cbv zeta.
  pose proof (upload_multiple_videos_calls s c videos_dir entries st) as H.
  cbv zeta in H. destruct H as (st1 & st2 & Ht1 & Hu1 & Hc & Ht2 & Hu2 & _).
  destruct (calls_grow _ _ _ _ Hc) as [Hs Hg].
  rewrite Ht2, Hu2, <- Ht1, <- Hu1. auto.
Qed.

(** X13: a wait that times out passes for a wait that succeeds.  When the
    wait for the processed video and the wait for the completion message
    both time out, and the page address can be read, the call does what it
    does when both messages are found: in particular it reports the upload
    as done and records it. *)
Theorem X13_timeouts_pass_for_success (b : Browser) (p : Path)
    (d : option string) (h : option (list string)) (st : State) :
  b_current_url b = true ->
  _upload_single_video (with_waits Timeout Timeout b) p d h st
  = _upload_single_video (with_waits Found Found b) p d h st.
Proof.
  intros H. unfold _upload_single_video, try_upload, wait_completion,
    choose_description, with_waits. simpl. now rewrite H.
Qed.

Lemma X13_witness :
  _upload_single_video (with_waits Timeout Timeout example_browser)
    "output/video.mp4" None None (set_driver true example_state)
  = _upload_single_video (with_waits Found Found example_browser)
      "output/video.mp4" None None (set_driver true example_state).
Proof. apply X13_timeouts_pass_for_success. reflexivity. Defined.

(** X14: the browser is always let go.  After [upload_video] the uploader
    holds no driver; after [upload_multiple_videos] it holds none either,
    when it held none before. *)
Theorem X14_driver_is_released :
  (forall s b p d h st, driver (snd (upload_video s b p d h st)) = false) /\
  (forall s c videos_dir entries st,
     driver st = false ->
     driver (snd (fst (upload_multiple_videos s c videos_dir entries st))) = false).
Proof.
  split.
  - intros s b p d h st. unfold upload_video.
    destruct (_setup_driver s st) as [ok st1].
    destruct (negb ok); [reflexivity|].
    destruct (login s st1) as [logged st2].
    destruct (negb logged); [reflexivity|].
    destruct (_upload_single_video _ _ _ _ _) as [[r|] st3]; reflexivity.
  - intros s c videos_dir entries st Hd. unfold upload_multiple_videos.
    destruct entries as [entries|]; [|exact Hd].
    destruct (is_empty _); [exact Hd|].
    destruct (_setup_driver s st) as [ok st1].
    destruct (negb ok); [reflexivity|].
    destruct (login s st1) as [logged st2].
    destruct (negb logged); [reflexivity|].
    destruct (upload_loop _ _ _ _ _ _ _) as [[[n|] st3] tr]; reflexivity.
Qed.

Lemma X14_witness :
  driver (snd (fst (upload_multiple_videos example_session example_batch "videos"
                      (Some ["a.mp4"]) example_state))) = false.
Proof. apply (proj2 X14_driver_is_released). reflexivity. Defined.

(** ** Counting the uploads *)

Lemma upload_loop_stops c n i rest cnt st tr :
  rest = [] \/ limit_reached (max_uploads c) cnt = true ->
  upload_loop c n i rest cnt st tr = (Some cnt, st, tr).
Proof.
  intros [->|H]; [reflexivity|]. destruct rest; [reflexivity|].
  cbn [upload_loop]. now rewrite H.
Qed.

Lemma randint_empty_range a b r : (b < a)%Z -> randint a b r = None.
Proof. intros H. unfold randint. now rewrite (proj2 (Z.ltb_lt b a) H). Qed.

Lemma upload_loop_count c n :
  forall vf i cnt st tr res st' tr',
    upload_loop c n i vf cnt st tr = (res, st', tr') ->
    exists done,
      tr' = tr ++ done /\
      (forall k, res = Some k -> k = (cnt + length (successes done))%nat) /\
      (forall m, max_uploads c = Some m ->
         (Z.of_nat (cnt + length (successes done)) <= Z.max (Z.of_nat cnt) m)%Z) /\
      ((max_delay c < min_delay c)%Z -> n = (i + length vf)%nat ->
         (length (successes done) <= 1)%nat).
Proof.
  induction vf as [|video rest IH]; intros i cnt st tr res st' tr'.
  - intros [= <- <- <-]. exists []. rewrite app_nil_r. simpl.
    repeat split; try lia. intros k [= <-]. lia.
  - cbn [upload_loop].
    destruct (limit_reached (max_uploads c) cnt) eqn:Hlim.
    { intros [= <- <- <-]. exists []. rewrite app_nil_r. simpl.
      repeat split; try lia. intros k [= <-]. lia. }
    assert (Hroom : forall m, max_uploads c = Some m -> (Z.of_nat (S cnt) <= m)%Z).
    { intros m Hm. unfold limit_reached in Hlim. rewrite Hm in Hlim.
      apply Z.leb_gt in Hlim. lia. }
    destruct (_upload_single_video (browsers c i) video None (hashtags c) st)
      as [r st1] eqn:Hu.
    assert (Hstop : forall success,
      exists done, tr ++ [(video, success)] = tr ++ done /\
        (forall k, @None nat = Some k -> k = (cnt + length (successes done))%nat) /\
        (forall m, max_uploads c = Some m ->
           (Z.of_nat (cnt + length (successes done)) <= Z.max (Z.of_nat cnt) m)%Z) /\
        ((max_delay c < min_delay c)%Z -> n = (i + length (video :: rest))%nat ->
           (length (successes done) <= 1)%nat)).
    { intros success. exists [(video, success)]. split; [reflexivity|].
      rewrite successes_cons. split; [discriminate|].
      destruct success; simpl; split; try lia;
        intros m Hm; specialize (Hroom m Hm); lia. }
    destruct r as [success|]; [|intros [= <- <- <-]; apply Hstop].
    destruct success.
    + destruct ((i <? n - 1)%nat && negb (limit_reached (max_uploads c) (S cnt)))
        eqn:Hwait.
      * destruct (randint _ _ _) as [delay|] eqn:Hdelay.
        -- destruct (delay <? 0)%Z; [intros [= <- <- <-]; apply Hstop|].
           intros Hl. destruct (IH _ _ _ _ _ _ _ Hl) as (done & -> & Hk & Hm & _).
           exists ((video, true) :: done). rewrite <- app_assoc.
           split; [reflexivity|]. rewrite successes_cons. cbn [length].
           split; [intros k Hr; specialize (Hk k Hr); lia|].
           split.
           ++ intros m Hmax. specialize (Hm m Hmax). specialize (Hroom m Hmax). lia.
           ++ intros Hbad. now rewrite (randint_empty_range _ _ _ Hbad) in Hdelay.
        -- intros [= <- <- <-]. apply Hstop.
      * intros Hl. destruct (IH _ _ _ _ _ _ _ Hl) as (done & -> & Hk & Hm & _).
        exists ((video, true) :: done). rewrite <- app_assoc.
        split; [reflexivity|]. rewrite successes_cons. cbn [length].
        split; [intros k Hr; specialize (Hk k Hr); lia|].
        split.
        -- intros m Hmax. specialize (Hm m Hmax). specialize (Hroom m Hmax). lia.
        -- intros _ Hn.
           assert (Hend : rest = [] \/ limit_reached (max_uploads c) (S cnt) = true).
           { apply andb_false_iff in Hwait as [Hw|Hw].
             - left. apply Nat.ltb_ge in Hw. simpl in Hn.
               destruct rest; [reflexivity|simpl in Hn; lia].
             - right. now apply negb_false_iff in Hw. }
           rewrite (upload_loop_stops _ _ _ _ _ _ _ Hend) in Hl.
           injection Hl as _ _ Hl.
           assert (Hd : done = []).
           { destruct done; [reflexivity|]. apply (f_equal (@length _)) in Hl.
             rewrite !length_app in Hl. simpl in Hl. lia. }
           rewrite Hd. simpl. lia.
    + intros Hl. destruct (IH _ _ _ _ _ _ _ Hl) as (done & -> & Hk & Hm & Hone).
      exists ((video, false) :: done). rewrite <- app_assoc.
      split; [reflexivity|]. rewrite successes_cons.
      split; [exact Hk|]. split; [exact Hm|].
      intros Hbad Hn. apply (Hone Hbad). simpl in Hn. lia.
Qed.

Lemma upload_multiple_videos_count s c videos_dir entries st :
  let r := upload_multiple_videos s c videos_dir entries st in
  (fst (fst r) = length (successes (snd r)) \/ fst (fst r) = 0%nat) /\
  (forall m, max_uploads c = Some m ->
     (Z.of_nat (length (successes (snd r))) <= Z.max 0 m)%Z) /\
  ((max_delay c < min_delay c)%Z -> (length (successes (snd r)) <= 1)%nat).
Proof.
  cbv zeta. unfold upload_multiple_videos.
  assert (Hnone : forall (st0 : State),
    (fst (fst (0%nat, st0, @nil (string * bool)))
     = length (successes (snd (0%nat, st0, @nil (string * bool)))) \/
     fst (fst (0%nat, st0, @nil (string * bool))) = 0%nat) /\
    (forall m, max_uploads c = Some m ->
       (Z.of_nat (length (successes (snd (0%nat, st0, @nil (string * bool)))))
        <= Z.max 0 m)%Z) /\
    ((max_delay c < min_delay c)%Z ->
       (length (successes (snd (0%nat, st0, @nil (string * bool)))) <= 1)%nat)).
  { intros st0. simpl. repeat split; auto; lia. }
  destruct entries as [entries|]; [|apply Hnone].
  destruct (is_empty _); [apply Hnone|].
  destruct (_setup_driver s st) as [ok st1].
  destruct (negb ok); [apply Hnone|].
  destruct (login s st1) as [logged st2].
  destruct (negb logged); [apply Hnone|].
  destruct (upload_loop _ _ _ _ _ _ _) as [[res st3] tr] eqn:Hl.
  destruct (upload_loop_count _ _ _ _ _ _ _ _ _ _ Hl) as (done & Hd & Hk & Hm & Hone).
  simpl in Hd. subst tr. simpl in Hk, Hm.
  destruct res as [k|]; cbn [fst snd].
  - split; [left; now apply Hk|]. split; [exact Hm|].
    intros Hbad. apply Hone; [exact Hbad | reflexivity].
  - split; [now right|]. split; [exact Hm|].
    intros Hbad. apply Hone; [exact Hbad | reflexivity].
Qed.

(** X15: [max_uploads] is a cap on the uploads of one call: with the limit
    [m], at most [m] calls of [_upload_single_video] return [True] (none
    when [m] is not positive). *)
Theorem X15_max_uploads_is_respected (s : Session) (c : Batch) (videos_dir : Path)
    (entries : option (list string)) (st : State) (m : Z) :
  max_uploads c = Some m ->
  (Z.of_nat (length (successes (snd (upload_multiple_videos s c videos_dir entries st))))
   <= Z.max 0 m)%Z.
Proof.
  intros H. pose proof (upload_multiple_videos_count s c videos_dir entries st) as Hc.
  cbv zeta in Hc. now apply Hc.
Qed.

Lemma X15_witness :
  (Z.of_nat (length (successes (snd (upload_multiple_videos example_session
       (example_batch_of (Some 1) 3600 7200) "videos" (Some ["a.mp4"; "b.mp4"])
       example_videos_state))))
   <= Z.max 0 1)%Z.
Proof. apply X15_max_uploads_is_respected. reflexivity. Defined.

(** X16: the number that [upload_multiple_videos] returns is the number of
    calls of [_upload_single_video] that returned [True], or 0: when an
    exception escapes the loop, the method returns 0 whatever it has
    uploaded before. *)
Theorem X16_returned_count (s : Session) (c : Batch) (videos_dir : Path)
    (entries : option (list string)) (st : State) :
  let r := upload_multiple_videos s c videos_dir entries st in
  fst (fst r) = length (successes (snd r)) \/ fst (fst r) = 0%nat.
Proof. apply upload_multiple_videos_count. Qed.

(** X17: with [min_delay] greater than [max_delay], a call uploads at most
    one video: [random.randint] raises on the empty range when the method
    is about to wait before the next upload. *)
Theorem X17_empty_delay_range_stops_the_batch (s : Session) (c : Batch)
    (videos_dir : Path) (entries : option (list string)) (st : State) :
  (max_delay c < min_delay c)%Z ->
  (length (successes (snd (upload_multiple_videos s c videos_dir entries st))) <= 1)%nat.
Proof.
  intros H. pose proof (upload_multiple_videos_count s c videos_dir entries st) as Hc.
  cbv zeta in Hc. now apply Hc.
Qed.

Lemma X17_witness :
  (length (successes (snd (upload_multiple_videos example_session
      (example_batch_of None 7200 3600) "videos" (Some ["a.mp4"; "b.mp4"])
      example_videos_state))) <= 1)%nat.
Proof. apply X17_empty_delay_range_stops_the_batch. reflexivity. Defined.

Lemma single_files b p d h st r st' x :
  _upload_single_video b p d h st = (r, st') ->
  x ∈ files st -> x <> p -> x ∈ files st'.
Proof.
  unfold _upload_single_video. intros H Hin Hne.
  destruct (bool_decide (p ∈ files st)); [|now injection H as _ <-].
  destruct (try_upload b p d h st) as [r1 st1] eqn:Htry.
  destruct (try_upload_effect _ _ _ _ _ _ _ Htry) as (_ & _ & Hs & _).
  unfold os_remove in H.
  destruct (_ && _); injection H as _ <-; [|now apply Hs].
  cbn [files set_files]. apply elem_of_difference. split; [now apply Hs|].
  intros Hx. apply elem_of_singleton in Hx. contradiction.
Qed.

Lemma calls_files h st tr st' x :
  calls h st tr st' -> x ∈ files st -> x ∉ attempts tr -> x ∈ files st'.
Proof.
  induction 1 as [st|st b p r st1 tr st2 Hu Hc IH]; intros Hin Hnot; [exact Hin|].
  apply IH.
  - apply (single_files _ _ _ _ _ _ _ _ Hu Hin).
    intros ->. apply Hnot. now left.
  - intros Hx. apply Hnot. now right.
Qed.

(** X19: [upload_multiple_videos] removes no file but the videos it tried to
    upload. *)
Theorem X19_only_tried_videos_are_removed (s : Session) (c : Batch)
    (videos_dir : Path) (entries : option (list string)) (st : State) (x : Path) :
  x ∈ files st ->
  x ∉ attempts (snd (upload_multiple_videos s c videos_dir entries st)) ->
  x ∈ files (snd (fst (upload_multiple_videos s c videos_dir entries st))).
Proof.
  intros Hin Hnot.
  pose proof (upload_multiple_videos_calls s c videos_dir entries st) as H.
  cbv zeta in H. destruct H as (st1 & st2 & _ & _ & Hc & _ & _ & _ & Hf1 & Hf2).
  rewrite Hf2. apply (calls_files _ _ _ _ _ Hc); [now apply Hf1 | exact Hnot].
Qed.

Lemma X19_witness :
  "videos/b.mp4"
    ∈ files (snd (fst (upload_multiple_videos example_session example_batch "videos"
                         (Some ["a.mp4"]) example_videos_state))).
Proof.
  apply X19_only_tried_videos_are_removed.
  - cbn [files example_videos_state]. now apply elem_of_union_r, elem_of_singleton.
  - assert (E : attempts (snd (upload_multiple_videos example_session example_batch
                  "videos" (Some ["a.mp4"]) example_videos_state))
                = ["videos/a.mp4"]) by (vm_compute; reflexivity).
    rewrite E. intros H. apply list_elem_of_singleton in H. discriminate H.
Defined.

(** ** Captions *)

(** X20: the caption [_get_random_caption] gives is the fall-back "Check
    out my new video!" or the stripped text of a file of the captions
    directory whose name ends with ".txt" (in lower case: the test does not
    fold case, and a directory that lists NOTES.TXT alone gives the
    fall-back); and [strip] leaves it as it is: it neither starts nor ends
    with white space. *)
Theorem X20_caption_is_stripped_text_or_default (captions : Path)
    (listing : list string) (read : Path -> option string) (r : nat) :
  let caption := _get_random_caption captions listing read r in
  strip caption = caption /\
  (caption = default_caption \/
   exists file text,
     file ∈ listing /\ endswith file ".txt" = true /\
     read (path_join captions file) = Some text /\ caption = strip text) /\
  _get_random_caption captions ["NOTES.TXT"] read r = default_caption.
Proof.
  cbv zeta. unfold _get_random_caption.
  set (txt := List.filter (fun file => endswith file ".txt") listing).
  split; [|split; [|reflexivity]].
  - destruct (is_empty _); [reflexivity|].
    destruct (read _); [apply strip_idem | reflexivity].
  - destruct (path_join captions <$> txt) as [|f l] eqn:E; [now left|].
    cbn [is_empty].
    destruct (read _) as [text|] eqn:Hr; [|now left]. right.
    assert (Hin : nth (r mod length (f :: l)) (f :: l) "" ∈ path_join captions <$> txt).
    { rewrite E. now apply nth_mod_in. }
    apply list_elem_of_fmap in Hin as (file & Hf & Hin).
    apply elem_of_list_filter in Hin as [Hin Hext].
    exists file, text. rewrite <- Hf. auto.
Qed.

(** ** [upload_video] once more *)

(** X21: when [upload_video] returns [True], the driver was set up and the
    account logged in, no file is left at [video_path], and the path is in
    [uploaded_videos] and has its line in the tracking file. *)
Theorem X21_upload_video_true_means_recorded (s : Session) (b : Browser)
    (p : Path) (d : option string) (h : option (list string)) (st : State) :
  fst (upload_video s b p d h st) = true ->
  ready s = true /\
  (p ∉ files (snd (upload_video s b p d h st))) /\
  p ∈ uploaded_videos (snd (upload_video s b p d h st)) /\
  has_line (tracking (snd (upload_video s b p d h st))) p.
Proof.
  unfold upload_video, ready, _setup_driver, login.
  destruct (s_chrome s); [|discriminate].
  destruct (s_script s); [|discriminate]. cbn [negb andb].
  destruct (s_cookies s && s_cookie_login s || s_manual_login s); [|discriminate].
  cbn [negb].
  destruct (_upload_single_video _ _ _ _ _) as [r st1] eqn:Hu.
  destruct (single_effect _ _ _ _ _ _ _ Hu) as (_ & _ & _ & _ & Hs & Hf).
  destruct r as [r|]; [|discriminate]. cbn [fst snd]. intros ->.
  destruct (Hs eq_refl) as [Ht Hin].
  split; [reflexivity|]. split; [exact (Hf true eq_refl)|].
  split; [exact Hin|]. cbn [_cleanup set_driver tracking]. rewrite Ht.
  eexists _, "". now rewrite append_nil_r.
Qed.

Lemma X21_witness :
  ready example_session = true /\
  ("output/video.mp4"
     ∉ files (snd (upload_video example_session example_browser "output/video.mp4"
                     None None example_state))) /\
  "output/video.mp4"
    ∈ uploaded_videos (snd (upload_video example_session example_browser
                              "output/video.mp4" None None example_state)) /\
  has_line (tracking (snd (upload_video example_session example_browser
                             "output/video.mp4" None None example_state)))
    "output/video.mp4".
Proof.
  apply X21_upload_video_true_means_recorded. vm_compute. reflexivity.
Defined.

Lemma try_upload_fst b p d h st1 st2 :
  driver st1 = driver st2 -> captions_dir st1 = captions_dir st2 ->
  fst (try_upload b p d h st1) = fst (try_upload b p d h st2).
Proof.
  intros Hd Hc. unfold try_upload, choose_description. rewrite Hd, Hc.
  destruct (driver st2); [|reflexivity]. cbn [negb].
  destruct (b_get b); [|reflexivity]. cbn [negb].
  destruct (select_file b 3 (seq 0 3)); try reflexivity.
  destruct (b_processing b); try reflexivity;
    (destruct d as [d|]; [|destruct (b_captions b); [|reflexivity]];
     (destruct (click_post b 3 (seq 0 3)); try reflexivity;
      destruct (wait_completion b); try reflexivity;
      destruct (b_track_write b); reflexivity)).
Qed.

(** What a call hands back, read off the file system and the [try] block. *)
Lemma single_result b p d h st :
  fst (_upload_single_video b p d h st)
  = if bool_decide (p ∈ files st)
    then if b_remove b then Return (fst (try_upload b p d h st)) else Raise
    else Return false.
Proof.
  unfold _upload_single_video.
  destruct (bool_decide (p ∈ files st)) eqn:Hin; [|reflexivity].
  destruct (try_upload b p d h st) as [r st1] eqn:Htry.
  destruct (try_upload_effect _ _ _ _ _ _ _ Htry) as (_ & _ & Hs & _).
  apply bool_decide_eq_true in Hin. apply Hs in Hin.
  unfold os_remove. rewrite (bool_decide_eq_true_2 _ Hin).
  now destruct (b_remove b).
Qed.

(** X22: [upload_video] does not look at [uploaded_videos]: what it returns
    is the same whatever the set holds, so a path that is already recorded
    is uploaded again. *)
Theorem X22_upload_video_ignores_the_record (s : Session) (b : Browser)
    (p : Path) (d : option string) (h : option (list string)) (st : State)
    (u : gset Path) :
  fst (upload_video s b p d h (set_uploaded_videos u st))
  = fst (upload_video s b p d h st).
Proof.
  unfold upload_video, _setup_driver, login.
  destruct (s_chrome s); [|reflexivity].
  destruct (s_script s); [|reflexivity]. cbn [negb].
  destruct (negb _); [reflexivity|].
  set (stA := set_files _ (set_driver true (set_uploaded_videos u st))).
  set (stB := set_files _ (set_driver true st)).
  pose proof (single_result b p d h stA) as HA.
  pose proof (single_result b p d h stB) as HB.
  assert (Hf : fst (try_upload b p d h stA) = fst (try_upload b p d h stB))
    by now apply try_upload_fst.
  change (files stA) with (files stB) in HA. rewrite Hf, <- HB in HA.
  destruct (_upload_single_video b p d h stA) as [rA stA'].
  destruct (_upload_single_video b p d h stB) as [rB stB'].
  simpl in HA. subst rA. now destruct rB.
Qed.

(** X23: when [os.remove] raises in the [finally] clause, the call of
    [_upload_single_video] raises and the video stays where it is, whatever
    the [try] block was about to return; [upload_video] then returns
    [False], also for an upload that went through and was recorded. *)
Theorem X23_failed_removal_hides_the_result (s : Session) (b : Browser)
    (p : Path) (d : option string) (h : option (list string)) (st : State) :
  b_remove b = false -> p ∈ files st ->
  fst (_upload_single_video b p d h st) = Raise /\
  p ∈ files (snd (_upload_single_video b p d h st)) /\
  fst (upload_video s b p d h st) = false.
Proof.
  intros Hrm Hin. split; [|split].
  - now rewrite single_result, (bool_decide_eq_true_2 _ Hin), Hrm.
  - unfold _upload_single_video. rewrite (bool_decide_eq_true_2 _ Hin).
    destruct (try_upload b p d h st) as [r st1] eqn:Htry.
    destruct (try_upload_effect _ _ _ _ _ _ _ Htry) as (_ & _ & Hs & _).
    unfold os_remove. rewrite Hrm, andb_false_r. now apply Hs.
  - unfold upload_video, _setup_driver, login.
    destruct (s_chrome s); [|reflexivity].
    destruct (s_script s); [|reflexivity]. cbn [negb].
    destruct (negb _); [reflexivity|].
    set (st1 := set_files _ _).
    pose proof (single_result b p d h st1) as H.
    assert (Hin1 : p ∈ files st1) by (cbn; now apply elem_of_union_r).
    rewrite (bool_decide_eq_true_2 _ Hin1), Hrm in H.
    destruct (_upload_single_video b p d h st1) as [r st2].
    simpl in H. now subst r.
Qed.

Lemma X23_witness :
  fst (_upload_single_video (mkBrowser true (fun _ => true) (fun _ => true) Found
         (Some ["sample.txt"]) (fun _ => Some "A caption") 0 (fun _ => None)
         (fun _ => true) true Found true true None false)
         "output/video.mp4" None None example_state) = Raise /\
  "output/video.mp4"
    ∈ files (snd (_upload_single_video (mkBrowser true (fun _ => true) (fun _ => true)
         Found (Some ["sample.txt"]) (fun _ => Some "A caption") 0 (fun _ => None)
         (fun _ => true) true Found true true None false)
         "output/video.mp4" None None example_state)) /\
  fst (upload_video example_session (mkBrowser true (fun _ => true) (fun _ => true)
         Found (Some ["sample.txt"]) (fun _ => Some "A caption") 0 (fun _ => None)
         (fun _ => true) true Found true true None false)
         "output/video.mp4" None None example_state) = false.
Proof.
  apply X23_failed_removal_hides_the_result; [reflexivity|].
  cbn [files example_state]. now apply elem_of_singleton.
Defined.

(** X24: [upload_multiple_videos] tries the new videos in the order in which
    the directory lists them and skips none: the paths it tries are the
    first ones of the list of new videos, each once when the directory
    lists no name twice. *)
Theorem X24_videos_tried_in_listing_order (s : Session) (c : Batch)
    (videos_dir : Path) (entries : list string) (st : State) :
  attempts (snd (upload_multiple_videos s c videos_dir (Some entries) st))
    `prefix_of` new_videos videos_dir entries (uploaded_videos st) /\
  (NoDup entries ->
   NoDup (attempts (snd (upload_multiple_videos s c videos_dir (Some entries) st)))).
Proof.
  pose proof (upload_multiple_videos_calls s c videos_dir (Some entries) st) as H.
  cbv zeta in H. destruct H as (st1 & st2 & _ & _ & _ & _ & _ & Hp & _).
  split; [exact Hp|]. intros Hnd.
  eapply NoDup_prefix; [exact Hp|]. now apply new_videos_NoDup.
Qed.

Lemma X24_witness :
  NoDup (attempts (snd (upload_multiple_videos example_session example_batch "videos"
                          (Some ["a.mp4"; "b.mp4"]) example_videos_state))).
Proof.
  apply (proj2 (X24_videos_tried_in_listing_order example_session example_batch
                  "videos" ["a.mp4"; "b.mp4"] example_videos_state)).
  repeat constructor.
  - intros H. apply list_elem_of_singleton in H. discriminate H.
  - apply not_elem_of_nil.
Defined.

(** X28: what [upload_video] records, a later uploader reads back.  When
    [upload_video] returns [True] for a clean path and the tracking file it
    found was absent, empty or ended with a line feed, no later run of
    [upload_multiple_videos] on the tracking file it leaves tries that path,
    whatever its directory holds. *)
Theorem X28_uploaded_video_is_skipped_by_a_later_batch (s : Session) (b : Browser)
    (p : Path) (d : option string) (h : option (list string)) (st : State)
    (inv : Invocation) :
  fst (upload_video s b p d h st) = true ->
  terminated (tracking st) = true ->
  clean p = true ->
  p ∉ attempts (snd (run_invocation inv (tracking (snd (upload_video s b p d h st))))).
Proof.
  intros Hr Hterm Hclean.
  assert (Ht : tracking (snd (upload_video s b p d h st))
               = Some (default "" (tracking st) +:+ p +:+ newline)).
  { revert Hr. unfold upload_video, _setup_driver, login.
    destruct (s_chrome s); [|discriminate].
    destruct (s_script s); [|discriminate]. cbn [negb andb].
    destruct (s_cookies s && s_cookie_login s || s_manual_login s); [|discriminate].
    cbn [negb].
    destruct (_upload_single_video _ _ _ _ _) as [r st1] eqn:Hu.
    destruct (single_effect _ _ _ _ _ _ _ Hu) as (_ & _ & _ & _ & Hs & _).
    destruct r as [r|]; [|discriminate]. cbn [fst snd]. intros ->.
    destruct (Hs eq_refl) as [Ht _].
    cbn [_cleanup set_driver tracking]. exact Ht. }
  rewrite Ht.
  destruct (run_invocation_spec inv (Some (default "" (tracking st) +:+ p +:+ newline)))
    as [Hnot _].
  cbv zeta in Hnot. rewrite Forall_forall in Hnot. intros Hin.
  apply (Hnot p Hin). rewrite load_uploaded_append by assumption.
  apply elem_of_union_l. now apply elem_of_singleton.
Qed.

Lemma X28_witness :
  "output/video.mp4"
    ∉ attempts
        (snd (run_invocation example_later_invocation
                (tracking (snd (upload_video example_session example_browser
                                  "output/video.mp4" None None example_state))))).
Proof.
  apply X28_uploaded_video_is_skipped_by_a_later_batch; vm_compute; reflexivity.
Defined.

(** ** Cookies *)

Lemma fix_cookie_lookup (cookie : gmap string string) k :
  fix_cookie cookie !! k
  = if decide (k = "expiry") then None
    else if decide (k = "sameSite") then (fun _ => "None") <$> cookie !! k
    else cookie !! k.
Proof.
  unfold fix_cookie. cbv zeta.
  assert (H1 : (if bool_decide (is_Some (cookie !! "expiry")) then delete "expiry" cookie
                else cookie) = delete "expiry" cookie).
  { case_bool_decide as E; [reflexivity|]. symmetry. apply delete_id.
    now apply eq_None_not_Some. }
  rewrite H1. clear H1.
  assert (H2 : delete "expiry" cookie !! "sameSite" = cookie !! "sameSite")
    by now apply lookup_delete_ne.
  rewrite H2.
  destruct (decide (k = "expiry")) as [->|Hk].
  - case_bool_decide; [rewrite lookup_insert_ne by discriminate|]; apply lookup_delete_eq.
  - destruct (decide (k = "sameSite")) as [->|Hk2].
    + case_bool_decide as E.
      * rewrite lookup_insert_eq. destruct E as [v ->]. reflexivity.
      * rewrite H2. apply eq_None_not_Some in E. now rewrite E.
    + case_bool_decide; [rewrite lookup_insert_ne by congruence|];
        now apply lookup_delete_ne.
Qed.

(** X26: the fix of l.164-167 leaves a cookie with no expiry, sets sameSite
    to 'None' exactly when the cookie has that key, keeps every other key as
    it is, and changes nothing when it is applied again. *)
Theorem X26_fixed_cookie (cookie : gmap string string) :
  fix_cookie cookie !! "expiry" = None /\
  fix_cookie cookie !! "sameSite" = (fun _ => "None") <$> cookie !! "sameSite" /\
  (forall k, k <> "expiry" -> k <> "sameSite" -> fix_cookie cookie !! k = cookie !! k) /\
  fix_cookie (fix_cookie cookie) = fix_cookie cookie.
Proof.
  split; [now rewrite fix_cookie_lookup|]. split; [now rewrite fix_cookie_lookup|].
  split.
  - intros k H1 H2. rewrite fix_cookie_lookup.
    destruct (decide _); [contradiction|]. now destruct (decide _).
  - apply map_eq. intros k. rewrite !fix_cookie_lookup.
    destruct (decide _); [reflexivity|]. destruct (decide _); [|reflexivity].
    now destruct (cookie !! k).
Qed.

Lemma added_count_positive add cs :
  (0 <? added_count add cs)%nat = true ->
  exists i, (i < length cs)%nat /\ add i = true.
Proof.
  unfold added_count. intros H. apply Nat.ltb_lt in H.
  destruct (List.filter add (seq 0 (length cs))) as [|i l] eqn:E; [simpl in H; lia|].
  assert (Hin : List.In i (List.filter add (seq 0 (length cs)))) by (rewrite E; now left).
  apply List.filter_In in Hin as [Hin Hadd]. apply List.in_seq in Hin.
  exists i. split; [lia | exact Hadd].
Qed.

(** X27: [_load_cookies] returns [True] only when the page loaded, the
    refresh returned and the browser took at least one cookie.  The cookies
    are those the uploader was given, or those of the cookies file when it
    was given none and a file is named; the uploader then holds them fixed,
    and no screenshot is saved. *)
Theorem X27_cookies_loaded_means_one_was_added (page : CookiePage)
    (cookies_file : bool) (cookies : option (list (gmap string string))) :
  fst (fst (_load_cookies page cookies_file cookies)) = true ->
  c_get page = true /\ c_refresh page = true /\
  snd (_load_cookies page cookies_file cookies) = None /\
  exists cs,
    (if cookies_file && negb (has_cookies cookies) then c_file page = CookiesRead cs
     else cookies = Some cs) /\
    snd (fst (_load_cookies page cookies_file cookies)) = Some (fix_cookie <$> cs) /\
    exists i, (i < length cs)%nat /\ c_add page i = true.
Proof.
  unfold _load_cookies. destruct (c_get page); [|discriminate]. cbn [negb]. cbv zeta.
  destruct (cookies_file && negb (has_cookies cookies)).
  - destruct (c_file page) as [cs| |]; try discriminate.
    destruct cs as [|c cs]; [discriminate|].
    destruct (c_refresh page); [|discriminate]. cbn [fst snd]. intros H.
    repeat split. exists (c :: cs). repeat split. now apply added_count_positive.
  - destruct cookies as [[|c cs]|]; try discriminate.
    destruct (c_refresh page); [|discriminate]. cbn [fst snd]. intros H.
    repeat split. exists (c :: cs). repeat split. now apply added_count_positive.
Qed.

Lemma X27_witness :
  c_get example_cookie_page = true /\ c_refresh example_cookie_page = true /\
  snd (_load_cookies example_cookie_page false (Some [example_cookie])) = None /\
  exists cs,
    (if false && negb (has_cookies (Some [example_cookie]))
     then c_file example_cookie_page = CookiesRead cs
     else Some [example_cookie] = Some cs) /\
    snd (fst (_load_cookies example_cookie_page false (Some [example_cookie])))
    = Some (fix_cookie <$> cs) /\
    exists i, (i < length cs)%nat /\ c_add example_cookie_page i = true.
Proof.
  apply (X27_cookies_loaded_means_one_was_added example_cookie_page false
           (Some [example_cookie])).
  reflexivity.
Defined.

End UploaderProofs.
